(** * The PostgreSQL game store of terraforming-mars

    A shallow embedding of [PostgreSQL implements IDatabase]: the two
    relations [games] and [game_results], the SQL statements the class
    sends, and the methods that send them, written in a state-and-exception
    monad over the store. *)

From Stdlib Require Import ZArith Ascii String.
From stdpp Require Import base decidable option list sorting numbers strings pretty gmap.

Local Open Scope Z_scope.

(** ** Data model: the schema created by [initialize] *)

Definition GameId := string.

(** Column [status text default 'running']; the store only ever writes
    the two values below. *)
Inductive Status := running | finished.

#[global] Instance Status_eq_dec : EqDecision Status.
Proof. solve_decision. Defined.

(** [games(game_id varchar, players integer, save_id integer, game text,
    status text default 'running', created_time timestamp default now(),
    PRIMARY KEY (game_id, save_id))].  Integer columns are mathematical
    integers and timestamps are microseconds on a linear clock. *)
Record GameRow := mkGameRow {
  game_id : GameId;
  players : Z;
  save_id : Z;
  game : string;
  status : Status;
  created_time : Z
}.

(** [game_results(game_id varchar not null, seed_game_id varchar,
    players integer, generations integer, game_options text, scores text,
    PRIMARY KEY (game_id))]. *)
Record ResultRow := mkResultRow {
  res_game_id : GameId;
  res_seed_game_id : option GameId;
  res_players : Z;
  res_generations : Z;
  res_game_options : string;
  res_scores : string
}.

(** Errors the methods can see: a failure reported by the driver for a
    query, the violation of a primary key, and a JavaScript [Error]. *)
Inductive Error :=
| BackendError (msg : string)
| UniqueViolation (constraint : string)
| JsError (msg : string).

Definition message (e : Error) : string :=
  match e with
  | BackendError m => m
  | UniqueViolation c => "duplicate key value violates unique constraint " +:+ c
  | JsError m => m
  end.

(** The statements of the class, with their [$n] parameters. *)
Inductive Sql :=
| SelectPlayers (g : GameId)
| SelectActiveGames
| SelectSaveIds (g : GameId)
| SelectMaxSaveId (g : GameId)
| InsertResult (r : ResultRow)
| DeleteTrim (g : GameId) (hi : option Z)
| UpdateFinished (g : GameId)
| DeletePurge (days : Z)
| UpsertGame (g : GameId) (v : Z) (doc : string) (n : Z)
| DeleteRecent (g : GameId) (n : Z).

(** What the console received. *)
Inductive LogLine :=
| ConsoleError (args : list string) (e : Error)
| ConsoleWarn (msg : string)
| ConsoleLogPurged (rowCount : nat).

(** The world a method runs in.  [faults] is the list of outcomes the
    backend will give to the next queries, in order: [Some e] makes the
    query fail with [e], [None] (or the end of the list) lets it run.
    [issued] records every statement handed to [client.query], oldest
    first. *)
Record Store := mkStore {
  games : list GameRow;
  game_results : list ResultRow;
  clock : Z;
  env_MAX_GAME_DAYS : option string;
  faults : list (option Error);
  issued : list Sql;
  console : list LogLine
}.

Definition with_games (gs : list GameRow) (s : Store) : Store :=
  mkStore gs (game_results s) (clock s) (env_MAX_GAME_DAYS s)
          (faults s) (issued s) (console s).

Definition with_results (rs : list ResultRow) (s : Store) : Store :=
  mkStore (games s) rs (clock s) (env_MAX_GAME_DAYS s)
          (faults s) (issued s) (console s).

Definition with_faults (fs : list (option Error)) (s : Store) : Store :=
  mkStore (games s) (game_results s) (clock s) (env_MAX_GAME_DAYS s)
          fs (issued s) (console s).

Definition record_issue (q : Sql) (s : Store) : Store :=
  mkStore (games s) (game_results s) (clock s) (env_MAX_GAME_DAYS s)
          (faults s) (issued s ++ [q]) (console s).

Definition record_log (l : LogLine) (s : Store) : Store :=
  mkStore (games s) (game_results s) (clock s) (env_MAX_GAME_DAYS s)
          (faults s) (issued s) (console s ++ [l]).

(** ** The monad of the methods *)

Inductive Outcome (A : Type) :=
| Returned (a : A)
| Thrown (e : Error).
Arguments Returned {A} a.
Arguments Thrown {A} e.

Definition M (A : Type) : Type := Store -> Outcome A * Store.

Definition ret {A} (a : A) : M A := fun s => (Returned a, s).

Definition throw {A} (e : Error) : M A := fun s => (Thrown e, s).

Definition bind {A B} (m : M A) (k : A -> M B) : M B :=
  fun s =>
    match m s with
    | (Returned a, s') => k a s'
    | (Thrown e, s') => (Thrown e, s')
    end.

Definition log (l : LogLine) : M unit :=
  fun s => (Returned tt, record_log l s).

Notation "'do' x <- m ; k" := (bind m (fun x => k))
  (at level 10, x name, m at level 100, k at level 200).
Notation "m ;; k" := (bind m (fun _ => k))
  (at level 100, k at level 200, right associativity).

(** ** Relational semantics of the statements *)

Definition one_day : Z := 86400000000.

(** SQL [max]: NULL on the empty group. *)
Definition sql_max (xs : list Z) : option Z :=
  foldr (fun x acc => Some (match acc with
                            | None => x
                            | Some y => Z.max x y
                            end)) None xs.

Definition rows_of_game (g : GameId) (gs : list GameRow) : list GameRow :=
  filter (fun r => game_id r = g) gs.

(** [SELECT max(save_id) save_id, game_id FROM games WHERE
    status='running' GROUP BY game_id]. *)
Definition running_max (gs : list GameRow) : list (option Z * GameId) :=
  let rs := filter (fun r => status r = running) gs in
  (fun g => (sql_max (save_id <$> rows_of_game g rs), g))
    <$> remove_dups (game_id <$> rs).

Definition newest_first (r1 r2 : GameRow) : Prop :=
  created_time r2 <= created_time r1.

#[global] Instance newest_first_dec r1 r2 : Decision (newest_first r1 r2).
Proof. unfold newest_first. apply _. Defined.

(** [SELECT games.game_id FROM games, (...) a WHERE games.game_id =
    a.game_id AND games.save_id = a.save_id ORDER BY created_time DESC]. *)
Definition select_active_games (gs : list GameRow) : list GameId :=
  let a := running_max gs in
  let joined :=
    r ← gs; x ← a;
    if decide (game_id r = x.2 ∧ Some (save_id r) = x.1) then [r] else [] in
  game_id <$> merge_sort newest_first joined.

(** [SELECT players FROM games WHERE save_id = 0 AND game_id = $1 LIMIT 1]. *)
Definition select_players (g : GameId) (gs : list GameRow) : list Z :=
  take 1 (players <$> filter (fun r => save_id r = 0 ∧ game_id r = g) gs).

(** [SELECT distinct save_id FROM games WHERE game_id = $1]. *)
Definition select_save_ids (g : GameId) (gs : list GameRow) : list Z :=
  remove_dups (save_id <$> rows_of_game g gs).

(** [SELECT MAX(save_id) as save_id FROM games WHERE game_id = $1]: an
    aggregate without GROUP BY always yields one row. *)
Definition select_max_save_id (g : GameId) (gs : list GameRow)
  : list (option Z) :=
  [sql_max (save_id <$> rows_of_game g gs)].

(** [INSERT INTO game_results (...) VALUES (...)] under the primary key
    on [game_id]. *)
Definition insert_result (r : ResultRow) (rs : list ResultRow)
  : Error + list ResultRow :=
  if decide (res_game_id r ∈ res_game_id <$> rs)
  then inl (UniqueViolation "game_results_pkey")
  else inr (rs ++ [r]).

(** [save_id < $2] with a NULL parameter is never true. *)
Definition sql_lt (x : Z) (y : option Z) : Prop :=
  match y with
  | Some y => x < y
  | None => False
  end.

#[global] Instance sql_lt_dec x y : Decision (sql_lt x y).
Proof. destruct y; simpl; apply _. Defined.

(** [DELETE FROM games WHERE game_id = $1 AND save_id < $2 AND save_id > 0]. *)
Definition trimmed (g : GameId) (hi : option Z) (r : GameRow) : Prop :=
  game_id r = g ∧ sql_lt (save_id r) hi ∧ save_id r > 0.

#[global] Instance trimmed_dec g hi r : Decision (trimmed g hi r).
Proof. unfold trimmed. apply _. Defined.

Definition delete_trim (g : GameId) (hi : option Z) (gs : list GameRow)
  : list GameRow :=
  filter (fun r => ¬ trimmed g hi r) gs.

Definition set_status (st : Status) (r : GameRow) : GameRow :=
  mkGameRow (game_id r) (players r) (save_id r) (game r) st (created_time r).

(** [UPDATE games SET status = 'finished' WHERE game_id = $1]. *)
Definition update_finished (g : GameId) (gs : list GameRow) : list GameRow :=
  (fun r => if decide (game_id r = g) then set_status finished r else r) <$> gs.

(** [DELETE FROM games WHERE created_time < now() - interval '1 day' * $1]. *)
Definition expired (now days : Z) (r : GameRow) : Prop :=
  created_time r < now - one_day * days.

#[global] Instance expired_dec now days r : Decision (expired now days r).
Proof. unfold expired. apply _. Defined.

Definition delete_purge (now days : Z) (gs : list GameRow) : list GameRow :=
  filter (fun r => ¬ expired now days r) gs.

Definition set_game (doc : string) (r : GameRow) : GameRow :=
  mkGameRow (game_id r) (players r) (save_id r) doc (status r) (created_time r).

Definition has_key (g : GameId) (v : Z) (r : GameRow) : Prop :=
  game_id r = g ∧ save_id r = v.

#[global] Instance has_key_dec g v r : Decision (has_key g v r).
Proof. unfold has_key. apply _. Defined.

(** [INSERT INTO games (game_id, save_id, game, players) VALUES ($1, $2,
    $3, $4) ON CONFLICT (game_id, save_id) DO UPDATE SET game = $3]: the
    new row takes the defaults of [status] and [created_time]. *)
Definition upsert_game (now : Z) (g : GameId) (v : Z) (doc : string) (n : Z)
    (gs : list GameRow) : list GameRow :=
  if decide (Exists (has_key g v) gs)
  then (fun r => if decide (has_key g v r) then set_game doc r else r) <$> gs
  else gs ++ [mkGameRow g n v doc running now].

Definition highest_first (a b : nat * GameRow) : Prop :=
  save_id b.2 <= save_id a.2.

#[global] Instance highest_first_dec a b : Decision (highest_first a b).
Proof. unfold highest_first. apply _. Defined.

(** [DELETE FROM games WHERE ctid IN (SELECT ctid FROM games WHERE
    game_id = $1 ORDER BY save_id DESC LIMIT $2)]: the ctid of a row is
    its position in the relation. *)
Definition delete_recent (g : GameId) (n : Z) (gs : list GameRow)
  : list GameRow :=
  let tagged := imap (fun i r => (i, r)) gs in
  let ctids :=
    fst <$> take (Z.to_nat n)
      (merge_sort highest_first (filter (fun p => game_id p.2 = g) tagged)) in
  snd <$> filter (fun p => p.1 ∉ ctids) tagged.

(** The type of [res.rows] elements for each statement. *)
Definition row_of (q : Sql) : Type :=
  match q with
  | SelectPlayers _ => Z
  | SelectActiveGames => GameId
  | SelectSaveIds _ => Z
  | SelectMaxSaveId _ => option Z
  | _ => Empty_set
  end.

Record QueryResult (R : Type) := mkResult {
  rows : list R;
  rowCount : nat
}.
Arguments mkResult {R} rows rowCount.
Arguments rows {R} _.
Arguments rowCount {R} _.

Definition selected {R} (rs : list R) : QueryResult R :=
  mkResult rs (length rs).

Definition affected (before after : list GameRow) : QueryResult Empty_set :=
  mkResult [] (length before - length after)%nat.

(** Running one statement against the two relations at time [now]. *)
Definition sql_exec (now : Z) (q : Sql) (gs : list GameRow)
    (rs : list ResultRow)
  : Error + (QueryResult (row_of q) * list GameRow * list ResultRow) :=
  match q with
  | SelectPlayers g => inr (selected (select_players g gs), gs, rs)
  | SelectActiveGames => inr (selected (select_active_games gs), gs, rs)
  | SelectSaveIds g => inr (selected (select_save_ids g gs), gs, rs)
  | SelectMaxSaveId g => inr (selected (select_max_save_id g gs), gs, rs)
  | InsertResult r =>
      match insert_result r rs with
      | inl e => inl e
      | inr rs' => inr (mkResult [] 1, gs, rs')
      end
  | DeleteTrim g hi =>
      let gs' := delete_trim g hi gs in inr (affected gs gs', gs', rs)
  | UpdateFinished g =>
      inr (mkResult [] (length (rows_of_game g gs)), update_finished g gs, rs)
  | DeletePurge days =>
      let gs' := delete_purge now days gs in inr (affected gs gs', gs', rs)
  | UpsertGame g v doc n =>
      inr (mkResult [] 1, upsert_game now g v doc n gs, rs)
  | DeleteRecent g n =>
      let gs' := delete_recent g n gs in inr (affected gs gs', gs', rs)
  end.

(** The outcome the backend gives to the [i]-th next query. *)
Definition fault_at (s : Store) (i : nat) : option Error :=
  match faults s !! i with
  | Some (Some e) => Some e
  | _ => None
  end.

(** The store once a statement has been handed to the backend. *)
Definition after_query (q : Sql) (s : Store) : Store :=
  with_faults (tail (faults s)) (record_issue q s).

(** [this.client.query(sql, params)]: the statement is recorded, the
    backend's next outcome is consumed, and either the driver's error or
    the result of the statement comes back.  A failed statement changes
    no relation. *)
Definition client_query (q : Sql) : M (Error + QueryResult (row_of q)) :=
  fun s =>
    let s1 := after_query q s in
    match fault_at s 0 with
    | Some e => (Returned (inl e), s1)
    | None =>
        match sql_exec (clock s1) q (games s1) (game_results s1) with
        | inl e => (Returned (inl e), s1)
        | inr (res, gs, rs) =>
            (Returned (inr res), with_results rs (with_games gs s1))
        end
    end.

(** ** [parseInt] and [Number.isInteger]

    A string is its list of code units.  A Number is a double: [NaN], an
    infinity, or a finite value; the finite values met here are integers
    and are kept as the integer they equal. *)

Inductive Number := NaN | Infinity (negative : bool) | Num (z : Z).

Definition isInteger (n : Number) : bool :=
  match n with
  | NaN => false
  | Infinity _ => false
  | Num _ => true
  end.

(** The double nearest to a positive integer, ties to the even
    significand of 53 bits; from [2 ^ 1024] on the result is infinite. *)
Definition round_to_double (n : Z) : option Z :=
  let e := Z.log2 n - 52 in
  let q := Z.shiftr n e in
  let r := n - Z.shiftl q e in
  let half := Z.shiftl 1 (e - 1) in
  let q' := if (half <? r) || ((r =? half) && Z.odd q) then q + 1 else q in
  let v := Z.shiftl q' e in
  if v <? 2 ^ 1024 then Some v else None.

(** The Number value of a mathematical integer: integers up to [2 ^ 53]
    in absolute value are doubles, the others are rounded. *)
Definition to_double (n : Z) : Number :=
  if Z.abs n <=? 2 ^ 53 then Num n
  else
    match round_to_double (Z.abs n) with
    | Some v => Num (Z.sgn n * v)
    | None => Infinity (n <? 0)
    end.

(** StrWhiteSpaceChar among the code units below 256. *)
Definition is_ws (c : ascii) : bool :=
  let n := Z.of_N (N_of_ascii c) in
  ((9 <=? n) && (n <=? 13)) || (n =? 32) || (n =? 160).

(** The value of a code unit as a digit of radix [R]. *)
Definition digit_val (R : Z) (c : ascii) : option Z :=
  let n := Z.of_N (N_of_ascii c) in
  let v :=
    if (48 <=? n) && (n <=? 57) then Some (n - 48)
    else if (97 <=? n) && (n <=? 122) then Some (n - 87)
    else if (65 <=? n) && (n <=? 90) then Some (n - 55)
    else None in
  match v with
  | Some d => if d <? R then Some d else None
  | None => None
  end.

Fixpoint skip_ws (s : list ascii) : list ascii :=
  match s with
  | c :: s' => if is_ws c then skip_ws s' else s
  | [] => []
  end.

Fixpoint digits_prefix (R : Z) (s : list ascii) : list Z :=
  match s with
  | c :: s' =>
      match digit_val R c with
      | Some d => d :: digits_prefix R s'
      | None => []
      end
  | [] => []
  end.

Definition math_int (R : Z) (ds : list Z) : Z :=
  foldl (fun acc d => acc * R + d) 0 ds.

(** One leading [-] or [+]. *)
Definition read_sign (S : list ascii) : Z * list ascii :=
  match S with
  | c :: t =>
      if decide (c = "-"%char) then (-1, t)
      else if decide (c = "+"%char) then (1, t)
      else (1, S)
  | [] => (1, S)
  end.

(** With no radix argument a [0x] or [0X] prefix selects radix 16. *)
Definition read_radix (S : list ascii) : Z * list ascii :=
  match S with
  | c0 :: c1 :: t =>
      if decide (c0 = "0"%char ∧ (c1 = "x"%char ∨ c1 = "X"%char))
      then (16, t)
      else (10, S)
  | _ => (10, S)
  end.

(** [parseInt(string)] with no radix argument: leading white space is
    dropped, the sign and the radix are read, and the longest run of
    digits is converted to a Number; no digit gives [NaN]. *)
Definition parseInt (str : string) : Number :=
  let S := skip_ws (list_ascii_of_string str) in
  let '(sign, S1) := read_sign S in
  let '(R, S2) := read_radix S1 in
  match digits_prefix R S2 with
  | [] => NaN
  | ds => to_double (sign * math_int R ds)
  end.

(** [maxGameDays || '']. *)
Definition or_empty (v : option string) : string :=
  match v with
  | Some s => s
  | None => ""
  end.

(** The two [const] lines of [purgeUnfinishedGames]. *)
Definition purge_days (maxGameDays : option string) : Z :=
  let envDays := parseInt (or_empty maxGameDays) in
  if isInteger envDays
  then match envDays with Num d => d | _ => 10 end
  else 10.

(** ** The methods *)

(** A value handed to a callback: JavaScript tells [undefined] from
    [null]. *)
Inductive Loaded (A : Type) :=
| Undefined
| Null
| Value (a : A).
Arguments Undefined {A}.
Arguments Null {A}.
Arguments Value {A} a.

(** What the store reads and writes of a [Game] object. *)
Record Game := mkGame {
  id : GameId;
  lastSaveId : Z;
  getPlayers : list string
}.

(** What becomes of a callback that the backend calls after the method
    has returned to its caller: it completes, or the exception it throws
    is uncaught, no caller being left to receive it. *)
Inductive Detached :=
| Completed
| Uncaught (e : Error).

(** A method that returns [void] at once and leaves its work to the
    callback of its query: the caller always gets the normal return, with
    no value; what the model returns is the fate of the callback. *)
Definition detached (callback : M unit) : M Detached :=
  fun s =>
    match callback s with
    | (Returned _, s') => (Returned Completed, s')
    | (Thrown e, s') => (Returned (Uncaught e), s')
    end.

(** The outcome of a method is the outcome of the whole chain of
    callbacks it starts: [Thrown e] is a rejected promise or an exception
    that leaves the chain.  [saveGameResults] is given with what its
    caller receives. *)
Section Methods.

Context {GameOptions Score : Type}.
Variable clonedGamedId : GameOptions -> option GameId.
Variable options_text : GameOptions -> string.
Variable JSON_stringify : list Score -> string.
Variable toJSON : Game -> string.

Definition getPlayerCount {A} (game_id : GameId)
    (cb : option Error -> option Z -> M A) : M A :=
  do r <- client_query (SelectPlayers game_id);
  match r with
  | inl err =>
      log (ConsoleError ["PostgreSQL:getPlayerCount"] err);;
      cb (Some err) None
  | inr res =>
      match rows res with
      | [] => cb None None
      | p :: _ => cb None (Some p)
      end
  end.

Definition getGames : M (list GameId) :=
  do r <- client_query SelectActiveGames;
  match r with
  | inr res => ret (rows res)
  | inl err => log (ConsoleError ["PostgreSQL:getGames"] err);; throw err
  end.

Definition getSaveIds (gameId : GameId) : M (list Z) :=
  do r <- client_query (SelectSaveIds gameId);
  match r with
  | inr res => ret (foldl (fun allSaveIds row => allSaveIds ++ [row]) [] (rows res))
  | inl err => throw err
  end.

Definition saveGameResults (game_id : GameId) (players generations : Z)
    (gameOptions : GameOptions) (scores : list Score) : M Detached :=
  detached
    (do r <- client_query
               (InsertResult
                  (mkResultRow game_id (clonedGamedId gameOptions) players
                     generations (options_text gameOptions)
                     (JSON_stringify scores)));
     match r with
     | inl err =>
         log (ConsoleError ["PostgreSQL:saveGameResults"] err);; throw err
     | inr _ => ret tt
     end).

Definition getMaxSaveId {A} (game_id : GameId)
    (cb : option Error -> Loaded Z -> M A) : M A :=
  do r <- client_query (SelectMaxSaveId game_id);
  match r with
  | inl err => cb (Some err) Undefined
  | inr res =>
      match rows res with
      | [] => throw (JsError "Cannot read properties of undefined")
      | None :: _ => cb None Null
      | Some v :: _ => cb None (Value v)
      end
  end.

Definition throwIf (err : option Error) (condition : string) : M unit :=
  match err with
  | Some e => log (ConsoleError ["PostgreSQL"; condition] e);; throw e
  | None => ret tt
  end.

Definition error_of {R} (r : Error + R) : option Error :=
  match r with
  | inl e => Some e
  | inr _ => None
  end.

(** The default of the parameter is taken when the argument is
    [undefined]. *)
Definition purgeUnfinishedGames (arg : option string) : M unit :=
  fun s =>
    let maxGameDays :=
      match arg with
      | Some v => Some v
      | None => env_MAX_GAME_DAYS s
      end in
    let days := purge_days maxGameDays in
    (do r <- client_query (DeletePurge days);
     match r with
     | inr res => log (ConsoleLogPurged (rowCount res))
     | inl err => log (ConsoleWarn (message err))
     end) s.

Definition cleanSaves (game_id : GameId) : M unit :=
  getMaxSaveId game_id (fun err save_id =>
    throwIf err "cleanSaves0";;
    match save_id with
    | Undefined => throw (JsError ("saveId is undefined for " +:+ game_id))
    | Null | Value _ =>
        let hi := match save_id with Value v => Some v | _ => None end in
        do r1 <- client_query (DeleteTrim game_id hi);
        throwIf (error_of r1) "cleanSaves1";;
        do r2 <- client_query (UpdateFinished game_id);
        throwIf (error_of r2) "cleanSaves2";;
        purgeUnfinishedGames None
    end).

(** [game.lastSaveId++] *)
Definition bump (game : Game) : Game :=
  mkGame (id game) (lastSaveId game + 1) (getPlayers game).

(** The method returns the game object as the call left it. *)
Definition saveGame (game : Game) : M Game :=
  let gameJSON := toJSON game in
  do r <- client_query
            (UpsertGame (id game) (lastSaveId game) gameJSON
               (Z.of_nat (length (getPlayers game))));
  match r with
  | inr _ => ret (bump game)
  | inl err => log (ConsoleError ["PostgreSQL:saveGame"] err);; ret game
  end.

Definition deleteGameNbrSaves (game_id : GameId) (rollbackCount : Z)
  : M unit :=
  if decide (rollbackCount > 0) then
    do r <- client_query (DeleteRecent game_id rollbackCount);
    match r with
    | inl err => log (ConsoleWarn (message err))
    | inr _ => ret tt
    end
  else ret tt.

End Methods.

(** ** Statements of the specification *)

Definition pk (r : GameRow) : GameId * Z := (game_id r, save_id r).

(** The primary key of [games]. *)
Definition pk_unique (gs : list GameRow) : Prop := NoDup (pk <$> gs).

(** The primary key of [game_results]. *)
Definition results_pk_unique (rs : list ResultRow) : Prop :=
  NoDup (res_game_id <$> rs).

(** The row of [g] with the greatest [save_id] has status [finished]. *)
Definition highest_version_finished (g : GameId) (gs : list GameRow) : Prop :=
  ∃ r, r ∈ gs ∧ game_id r = g ∧ status r = finished ∧
       ∀ r', r' ∈ gs → game_id r' = g → save_id r' <= save_id r.

Definition has_running_row (g : GameId) (gs : list GameRow) : Prop :=
  ∃ r, r ∈ gs ∧ game_id r = g ∧ status r = running.

(** The statements a method handed to the backend, given the stores
    before and after it. *)
Definition issued_since (s s' : Store) : list Sql :=
  drop (length (issued s)) (issued s').

Definition with_clock (now : Z) (s : Store) : Store :=
  mkStore (games s) (game_results s) now (env_MAX_GAME_DAYS s)
          (faults s) (issued s) (console s).

(** A valid integer, in the words of the specification: an optional
    sign followed by one or more decimal digits and nothing else. *)
Definition is_decimal_digit (c : ascii) : bool :=
  let n := Z.of_N (N_of_ascii c) in (48 <=? n) && (n <=? 57).

Definition decimal_value (ds : list ascii) : Z :=
  foldl (fun acc c => acc * 10 + (Z.of_N (N_of_ascii c) - 48)) 0 ds.

Definition unsigned_literal (ds : list ascii) : option Z :=
  match ds with
  | [] => None
  | _ => if forallb is_decimal_digit ds then Some (decimal_value ds) else None
  end.

Definition decimal_literal (s : string) : option Z :=
  match list_ascii_of_string s with
  | c :: ds =>
      if decide (c = "-"%char) then Z.opp <$> unsigned_literal ds
      else if decide (c = "+"%char) then unsigned_literal ds
      else unsigned_literal (c :: ds)
  | [] => None
  end.

(** The threshold as the specification words it: ten days when the value
    is absent or is not a valid integer, the configured integer
    otherwise. *)
Definition spec_purge_days (maxGameDays : option string) : Z :=
  match maxGameDays with
  | None => 10
  | Some v => default 10 (decimal_literal v)
  end.

(** The shapes of a configured value, and the integer each one holds at
    its head. *)
Definition starts_with (P : ascii → bool) (l : list ascii) : bool :=
  match l with
  | c :: _ => P c
  | [] => false
  end.

Definition is_sign (c : ascii) : bool :=
  bool_decide (c = "+"%char ∨ c = "-"%char).

Definition is_radix_mark (c : ascii) : bool :=
  bool_decide (c = "x"%char ∨ c = "X"%char).

Definition is_hex_digit (c : ascii) : bool :=
  let n := Z.of_N (N_of_ascii c) in
  ((48 <=? n) && (n <=? 57)) || ((97 <=? n) && (n <=? 102))
  || ((65 <=? n) && (n <=? 70)).

Definition hex_digit_value (c : ascii) : Z :=
  let n := Z.of_N (N_of_ascii c) in
  if n <=? 57 then n - 48 else if 97 <=? n then n - 87 else n - 55.

Definition hex_value (hs : list ascii) : Z :=
  foldl (fun acc c => acc * 16 + hex_digit_value c) 0 hs.

Inductive Sign := NoSign | Plus | Minus.

Definition sign_text (sg : Sign) : list ascii :=
  match sg with
  | NoSign => []
  | Plus => ["+"%char]
  | Minus => ["-"%char]
  end.

Definition sign_factor (sg : Sign) : Z :=
  match sg with
  | Minus => -1
  | _ => 1
  end.

(** [leading_integer l r]: the text [l] is white space, then at most one
    sign, then either a run of decimal digits, or [0x]/[0X] and a run of
    hexadecimal digits, then anything that does not continue the run; [r]
    is the signed value of the run, and [None] when the run is empty. *)
Inductive leading_integer : list ascii → option Z → Prop :=
| leading_none ws sg rest :
    forallb is_ws ws = true →
    (sg = NoSign →
     starts_with is_ws rest = false ∧ starts_with is_sign rest = false) →
    starts_with is_decimal_digit rest = false →
    leading_integer (ws ++ sign_text sg ++ rest) None
| leading_decimal ws sg ds rest :
    forallb is_ws ws = true →
    ds ≠ [] →
    forallb is_decimal_digit ds = true →
    starts_with is_decimal_digit rest = false →
    ¬ (ds = ["0"%char] ∧ starts_with is_radix_mark rest = true) →
    leading_integer (ws ++ sign_text sg ++ ds ++ rest)
      (Some (sign_factor sg * decimal_value ds))
| leading_hex ws sg x hs rest :
    forallb is_ws ws = true →
    is_radix_mark x = true →
    hs ≠ [] →
    forallb is_hex_digit hs = true →
    starts_with is_hex_digit rest = false →
    leading_integer (ws ++ sign_text sg ++ "0"%char :: x :: hs ++ rest)
      (Some (sign_factor sg * hex_value hs))
| leading_hex_none ws sg x rest :
    forallb is_ws ws = true →
    is_radix_mark x = true →
    starts_with is_hex_digit rest = false →
    leading_integer (ws ++ sign_text sg ++ "0"%char :: x :: rest) None.

(** The threshold for a reading: ten days when there is no integer or
    its double is infinite, the double of the integer otherwise. *)
Definition days_of_reading (r : option Z) : Z :=
  match r with
  | None => 10
  | Some n =>
      match to_double n with
      | Num d => d
      | _ => 10
      end
  end.

(** The steps of [parseInt] after the white space. *)
Definition parse_body (S : list ascii) : Number :=
  let '(sign, S1) := read_sign S in
  let '(R, S2) := read_radix S1 in
  match digits_prefix R S2 with
  | [] => NaN
  | ds => to_double (sign * math_int R ds)
  end.

(** ** Sample stores *)

(** A store with a healthy backend, no result and no retention setting. *)
Definition store_of (gs : list GameRow) (now : Z) : Store :=
  mkStore gs [] now None [] [] [].

(** Game g1 was finished at version 1 while its version 0 row still says
    [running]; g2 is running. *)
Definition stale_store : Store :=
  store_of [mkGameRow "g1" 2 0 "d0" running 5;
            mkGameRow "g1" 2 1 "d1" finished 6;
            mkGameRow "g2" 3 0 "e0" running 7] 100.

(** [stale_store] behind a backend that refuses the next query. *)
Definition down_store : Store :=
  with_faults [Some (BackendError "connection refused")] stale_store.

(** [stale_store] with the result of g1 recorded. *)
Definition recorded_store : Store :=
  with_results [mkResultRow "g1" None 2 14 "opts" "[p1:50,p2:42]"] stale_store.

Definition sample_game : Game := mkGame "g2" 1 ["p1"; "p2"; "p3"].

(** The scenario of the specification: versions 0, 1 and 2 of g2, all
    saved within the last two days. *)
Definition fresh_store : Store :=
  store_of [mkGameRow "g2" 3 0 "e0" running (10 * one_day);
            mkGameRow "g2" 3 1 "e1" running (11 * one_day);
            mkGameRow "g2" 3 2 "e2" running (11 * one_day);
            mkGameRow "g3" 2 0 "f0" running (11 * one_day)]
           (12 * one_day).

(** Game g2 has been played for twelve days: version 0 was saved at the
    start, version 1 on day five and version 2 on day eleven; g3 started
    yesterday. *)
Definition aged_store : Store :=
  store_of [mkGameRow "g2" 3 0 "e0" running 0;
            mkGameRow "g2" 3 1 "e1" running (5 * one_day);
            mkGameRow "g2" 3 2 "e2" running (11 * one_day);
            mkGameRow "g3" 2 0 "f0" running (11 * one_day)]
           (12 * one_day).

(** [aged_store] behind a backend that answers the first query and fails
    the second. *)
Definition trim_down_store : Store :=
  with_faults [None; Some (BackendError "deadlock detected")] aged_store.

(** ** The loaders

    The statements of the loaders only read [games].  They take their
    outcome from the backend like every other query; the list [issued]
    keeps the statements of type [Sql] and is not extended by them. *)

Definition after_select (s : Store) : Store :=
  with_faults (tail (faults s)) s.

(** [this.client.query] for a [SELECT] on [games] with the given
    relational meaning. *)
Definition client_select {R} (sem : list GameRow → list R)
  : M (Error + QueryResult R) :=
  fun s =>
    match fault_at s 0 with
    | Some e => (Returned (inl e), after_select s)
    | None => (Returned (inr (selected (sem (games s)))), after_select s)
    end.

Definition latest_first (r1 r2 : GameRow) : Prop :=
  save_id r2 <= save_id r1.

#[global] Instance latest_first_dec r1 r2 : Decision (latest_first r1 r2).
Proof. unfold latest_first. apply _. Defined.

(** [SELECT game_id, game FROM games WHERE game_id = $1 AND save_id = 0]. *)
Definition select_origin (g : GameId) (gs : list GameRow)
  : list (GameId * string) :=
  (fun r => (game_id r, game r))
    <$> filter (fun r => game_id r = g ∧ save_id r = 0) gs.

(** [SELECT game game FROM games WHERE game_id = $1 ORDER BY save_id DESC
    LIMIT 1]. *)
Definition select_latest (g : GameId) (gs : list GameRow) : list string :=
  take 1 (game <$> merge_sort latest_first (rows_of_game g gs)).

(** [SELECT game game FROM games WHERE game_id = $1 and save_id = $2]. *)
Definition select_version (g : GameId) (v : Z) (gs : list GameRow)
  : list string :=
  game <$> filter (fun r => game_id r = g ∧ save_id r = v) gs.

(** [id.charAt(0)]: the empty string has no first character. *)
Definition charAt0 (id : string) : option ascii :=
  match id with
  | String c _ => Some c
  | EmptyString => None
  end.

Section Loaders.

Context {SerializedGame : Type}.

(** [JSON.parse], which throws on a text that is not JSON. *)
Variable JSON_parse : string → Error + SerializedGame.

(** What the JSON operators of the backend read in a document: the [id]
    of each element of its [players] array, and its [spectatorId]. *)
Variable doc_player_ids : string → list string.
Variable doc_spectator_id : string → option string.

(** [SELECT game_id FROM games, json_array_elements(CAST(game AS
    JSON)->'players') AS e WHERE save_id = 0 AND e->>'id' = $1]. *)
Definition select_by_player (id : string) (gs : list GameRow) : list GameId :=
  r ← filter (fun r => save_id r = 0) gs;
  e ← doc_player_ids (game r);
  if decide (e = id) then [game_id r] else [].

(** [SELECT game_id FROM games WHERE save_id = 0 AND CAST(game AS
    JSON)->>'spectatorId' = $1]. *)
Definition select_by_spectator (id : string) (gs : list GameRow)
  : list GameId :=
  game_id
    <$> filter (fun r => save_id r = 0 ∧ doc_spectator_id (game r) = Some id) gs.

Definition loadCloneableGame (game_id : GameId) : M SerializedGame :=
  do r <- client_select (select_origin game_id);
  match r with
  | inl err => throw err
  | inr res =>
      match rows res with
      | [] => throw (JsError ("Game " +:+ game_id +:+ " not found"))
      | row :: _ =>
          match JSON_parse row.2 with
          | inl e => throw e
          | inr json => ret json
          end
      end
  end.

Definition getGame {A} (game_id : GameId)
    (cb : option Error → option SerializedGame → M A) : M A :=
  do r <- client_select (select_latest game_id);
  match r with
  | inl err => log (ConsoleError ["PostgreSQL:getGame"] err);; cb (Some err) None
  | inr res =>
      match rows res with
      | [] => cb (Some (JsError "Game not found")) None
      | doc :: _ =>
          match JSON_parse doc with
          | inl e => throw e
          | inr json => cb None (Some json)
          end
      end
  end.

Definition getGameId {A} (id : string)
    (cb : option Error → option GameId → M A) : M A :=
  let run (sem : list GameRow → list GameId) : M A :=
    do r <- client_select sem;
    match r with
    | inl err =>
        log (ConsoleError ["PostgreSQL:getGameId"] err);; cb (Some err) None
    | inr res =>
        if decide (rowCount res = 0%nat)
        then cb (Some (JsError ("Game for player id " +:+ id +:+ " not found")))
                None
        else
          match rows res with
          | [] => throw (JsError "Cannot read properties of undefined")
          | gameId :: _ => cb None (Some gameId)
          end
    end in
  if decide (charAt0 id = Some "p"%char) then run (select_by_player id)
  else if decide (charAt0 id = Some "s"%char) then run (select_by_spectator id)
  else throw (JsError ("id " +:+ id +:+ " is neither a player id or spectator id")).

Definition getGameVersion (game_id : GameId) (save_id : Z) : M SerializedGame :=
  do r <- client_select (select_version game_id save_id);
  match r with
  | inl err => throw err
  | inr res =>
      if decide (rowCount res = 0%nat)
      then throw (JsError ("Game " +:+ game_id +:+ " not found at save_id "
                           +:+ pretty save_id))
      else
        match rows res with
        | [] => throw (JsError "Cannot read properties of undefined")
        | doc :: _ =>
            match JSON_parse doc with
            | inl e => throw e
            | inr json => ret json
            end
        end
  end.

End Loaders.

(** ** Invariants of the methods *)

(** Both relations respect their primary key. *)
Definition keys_ok (s : Store) : Prop :=
  pk_unique (games s) ∧ results_pk_unique (game_results s).

(** A computation keeps a property of the store. *)
Definition keeps {A} (I : Store → Prop) (m : M A) : Prop :=
  ∀ s, I s → I (snd (m s)).

(** The statements that only read. *)
Definition is_select (q : Sql) : Prop :=
  match q with
  | SelectPlayers _ | SelectActiveGames | SelectSaveIds _ | SelectMaxSaveId _ =>
      True
  | _ => False
  end.

(** The relations are the given ones. *)
Definition relations_are (gs : list GameRow) (rs : list ResultRow) (s : Store)
  : Prop :=
  games s = gs ∧ game_results s = rs.

Definition results_are (rs : list ResultRow) (s : Store) : Prop :=
  game_results s = rs.

Definition games_are (gs : list GameRow) (s : Store) : Prop :=
  games s = gs.

(** A store with the three versions of g2 and the origin of g3, whose
    documents name their players. *)
Definition party_store : Store :=
  store_of [mkGameRow "g2" 3 0 "e0:p1,p2,p3" running (10 * one_day);
            mkGameRow "g2" 3 1 "e1:p1,p2,p3" running (11 * one_day);
            mkGameRow "g2" 3 2 "e2:p1,p2,p3" running (11 * one_day);
            mkGameRow "g3" 2 0 "f0:p4,p5" running (11 * one_day)]
           (12 * one_day).

(** The players that the documents of [party_store] name. *)
Definition party_player_ids (doc : string) : list string :=
  if decide (doc = "f0:p4,p5") then ["p4"; "p5"]
  else if decide (doc = "e0:p1,p2,p3") then ["p1"; "p2"; "p3"]
  else [].

(** ** Basic facts about the monad and the backend *)

Lemma fault_at_after_query q s i :
  fault_at (after_query q s) i = fault_at s (S i).
Proof.
  unfold fault_at, after_query; simpl.
  by destruct (faults s) as [|f fs].
Qed.

Lemma client_query_fail q s e :
  fault_at s 0 = Some e →
  client_query q s = (Returned (inl e), after_query q s).
Proof. intros H. unfold client_query. by rewrite H. Qed.

Lemma client_query_run q s :
  fault_at s 0 = None →
  client_query q s =
  match sql_exec (clock s) q (games s) (game_results s) with
  | inl e => (Returned (inl e), after_query q s)
  | inr (res, gs, rs) =>
      (Returned (inr res), with_results rs (with_games gs (after_query q s)))
  end.
Proof. intros H. unfold client_query. by rewrite H. Qed.

Lemma filter_none {A} (P : A → Prop) `{!∀ x, Decision (P x)} (l : list A) :
  (∀ x, x ∈ l → ¬ P x) → filter P l = [].
Proof.
  induction l as [|x l IH]; intros Hl; [done|].
  rewrite filter_cons_False; [|apply Hl; left].
  apply IH. intros y Hy. apply Hl. by right.
Qed.

Lemma sql_max_elem xs m : sql_max xs = Some m → m ∈ xs.
Proof.
  revert m; induction xs as [|x xs IH]; intros m; simpl; [done|].
  destruct (sql_max xs) as [y|] eqn:E; intros [= <-].
  - destruct (Z.max_spec x y) as [[_ ->]|[_ ->]].
    + right; by apply IH.
    + left.
  - left.
Qed.

Lemma sql_max_upper xs m x : sql_max xs = Some m → x ∈ xs → x <= m.
Proof.
  revert m; induction xs as [|y xs IH]; intros m; simpl.
  - by intros _ ?%elem_of_nil.
  - destruct (sql_max xs) as [z|] eqn:E; intros [= <-] [->|Hin]%elem_of_cons.
    + lia.
    + specialize (IH z eq_refl Hin); lia.
    + lia.
    + destruct xs; [by apply elem_of_nil in Hin | done].
Qed.

Lemma sql_max_is_Some xs x : x ∈ xs → is_Some (sql_max xs).
Proof. destruct xs; [by intros ?%elem_of_nil | simpl; eauto]. Qed.

(** ** Enumerating the active games *)

Lemma elem_of_running_max gs m g :
  (m, g) ∈ running_max gs ↔
  g ∈ game_id <$> filter (fun r => status r = running) gs ∧
  m = sql_max (save_id <$> rows_of_game g (filter (fun r => status r = running) gs)).
Proof.
  unfold running_max. rewrite list_elem_of_fmap. split.
  - intros (g' & [= -> ->] & Hg). by rewrite elem_of_remove_dups in Hg.
  - intros [Hg ->]. exists g. by rewrite elem_of_remove_dups.
Qed.

Lemma elem_of_select_active_games gs g :
  g ∈ select_active_games gs ↔ has_running_row g gs.
Proof.
  unfold select_active_games, has_running_row.
  rewrite list_elem_of_fmap. split.
  - intros (r & -> & Hr). rewrite merge_sort_Permutation in Hr.
    apply list_elem_of_bind in Hr as (r0 & Hr & Hr0).
    apply list_elem_of_bind in Hr as ([m g] & Hr & Hx).
    case_decide as Hc; [|by apply elem_of_nil in Hr].
    apply list_elem_of_singleton in Hr as ->. simpl in Hc. destruct Hc as [-> _].
    apply elem_of_running_max in Hx as [Hg _].
    apply list_elem_of_fmap in Hg as (r1 & -> & Hr1).
    apply list_elem_of_filter in Hr1 as [? ?]. eauto.
  - intros (r & Hr & <- & Hst).
    set (rs := filter (fun r => status r = running) gs).
    assert (Hrs : r ∈ rows_of_game (game_id r) rs).
    { unfold rows_of_game, rs. by rewrite !list_elem_of_filter. }
    destruct (sql_max_is_Some (save_id <$> rows_of_game (game_id r) rs) (save_id r))
      as [m Hm]; [by apply list_elem_of_fmap_2|].
    pose proof (sql_max_elem _ _ Hm) as Hin.
    apply list_elem_of_fmap in Hin as (r1 & -> & Hr1).
    unfold rows_of_game, rs in Hr1.
    rewrite !list_elem_of_filter in Hr1. destruct Hr1 as (Hg1 & Hst1 & Hin1).
    exists r1. split; [done|].
    rewrite merge_sort_Permutation.
    apply list_elem_of_bind. exists r1. split; [|done].
    apply list_elem_of_bind. exists (Some (save_id r1), game_id r). split.
    + rewrite decide_True; [left | done].
    + apply elem_of_running_max. split; [|symmetry; exact Hm].
      apply list_elem_of_fmap. exists r. split; [done|].
      by apply list_elem_of_filter.
Qed.

(** C1, as the code has it: [getGames] rethrows a backend error, and
    otherwise returns exactly the identifiers of the games that have at
    least one row with status [running].  A game whose rows are all
    [finished] is never listed; a game whose highest-version row is
    [finished] is listed when an older row of it still says [running]. *)
Theorem getGames_lists_games_with_running_row (s : Store) :
  match fault_at s 0 with
  | Some e => fst (getGames s) = Thrown e
  | None =>
      ∃ l, fst (getGames s) = Returned l ∧
           ∀ g, g ∈ l ↔ has_running_row g (games s)
  end.
Proof.
  unfold getGames, bind.
  destruct (fault_at s 0) as [e|] eqn:E.
  - by rewrite (client_query_fail _ _ _ E).
  - rewrite (client_query_run _ _ E). simpl.
    eexists; split; [done|]. apply elem_of_select_active_games.
Qed.

(** C1, as the specification states it, fails: g1's highest-version row
    is [finished], and g1 is listed because of its stale version 0. *)
Lemma getGames_lists_finished_game_with_stale_row :
  pk_unique (games stale_store) ∧
  highest_version_finished "g1" (games stale_store) ∧
  fst (getGames stale_store) = Returned ["g2"; "g1"].
Proof.
  split; [apply (bool_decide_unpack _); by vm_compute|].
  split; [|by vm_compute].
  exists (mkGameRow "g1" 2 1 "d1" finished 6). simpl.
  split; [right; left|]. do 2 (split; [done|]).
  intros r' Hr' Hg.
  repeat (apply elem_of_cons in Hr' as [->|Hr']; [by simpl in *|]).
  by apply elem_of_nil in Hr'.
Qed.

(** ** Player count of a missing game *)

(** C10: when no version 0 row of the game exists and the query runs,
    [getPlayerCount] calls back with [(undefined, undefined)]; it logs
    nothing and raises nothing of its own. *)
Theorem getPlayerCount_missing_game {A} (cb : option Error → option Z → M A)
    (s : Store) (g : GameId) :
  fault_at s 0 = None →
  (∀ r, r ∈ games s → ¬ (save_id r = 0 ∧ game_id r = g)) →
  getPlayerCount g cb s = cb None None (after_query (SelectPlayers g) s).
Proof.
  intros E Hnone. unfold getPlayerCount, bind.
  rewrite (client_query_run _ _ E). simpl.
  unfold select_players. by rewrite (filter_none _ _ Hnone).
Qed.

Lemma getPlayerCount_missing_game_witness :
  getPlayerCount "g9" (fun err n => ret (err, n)) stale_store =
  (Returned (None, None), after_query (SelectPlayers "g9") stale_store).
Proof.
  apply (getPlayerCount_missing_game (fun err n => ret (err, n)) stale_store "g9").
  - reflexivity.
  - intros r Hr [_ Hg]. simpl in Hr.
    repeat (apply elem_of_cons in Hr as [->|Hr]; [discriminate Hg|]).
    by apply elem_of_nil in Hr.
Defined.

(** ** Saving a game *)

(** C6: [saveGame] always resolves; the game's [lastSaveId] has grown by
    exactly one when the upsert ran, and is the old one when the backend
    failed. *)
Theorem saveGame_lastSaveId (toJSON : Game → string) (game : Game) (s : Store) :
  ∃ game', fst (saveGame toJSON game s) = Returned game' ∧
           lastSaveId game' =
           match fault_at s 0 with
           | None => lastSaveId game + 1
           | Some _ => lastSaveId game
           end.
Proof.
  unfold saveGame, bind.
  destruct (fault_at s 0) as [e|] eqn:E.
  - rewrite (client_query_fail _ _ _ E). simpl. eauto.
  - rewrite (client_query_run _ _ E). simpl. eauto.
Qed.

(** ** Errors of the write operations *)

(** C4, as the code has it: when the backend fails the query of
    [saveGame], [deleteGameNbrSaves] or [purgeUnfinishedGames], the error
    is written to the console and dropped: the operation completes
    normally, the relation is as before and [lastSaveId] is not advanced. *)
Theorem write_errors_logged_and_dropped (toJSON : Game → string) (game : Game)
    (g : GameId) (n : Z) (arg : option string) (s : Store) (e : Error) :
  fault_at s 0 = Some e →
  n > 0 →
  (fst (saveGame toJSON game s) = Returned game ∧
   games (snd (saveGame toJSON game s)) = games s ∧
   console (snd (saveGame toJSON game s)) =
     console s ++ [ConsoleError ["PostgreSQL:saveGame"] e]) ∧
  (fst (deleteGameNbrSaves g n s) = Returned tt ∧
   games (snd (deleteGameNbrSaves g n s)) = games s ∧
   console (snd (deleteGameNbrSaves g n s)) =
     console s ++ [ConsoleWarn (message e)]) ∧
  (fst (purgeUnfinishedGames arg s) = Returned tt ∧
   games (snd (purgeUnfinishedGames arg s)) = games s ∧
   console (snd (purgeUnfinishedGames arg s)) =
     console s ++ [ConsoleWarn (message e)]).
Proof.
  intros E Hn. repeat split.
  all: unfold saveGame, deleteGameNbrSaves, purgeUnfinishedGames, bind.
  all: rewrite ?decide_True by done.
  all: by rewrite (client_query_fail _ _ _ E).
Qed.

Lemma write_errors_logged_and_dropped_witness :
  fst (saveGame (fun _ => "doc") sample_game down_store) = Returned sample_game ∧
  fst (deleteGameNbrSaves "g2" 1 down_store) = Returned tt ∧
  fst (purgeUnfinishedGames None down_store) = Returned tt.
Proof.
  destruct (write_errors_logged_and_dropped (fun _ => "doc") sample_game
              "g2" 1 None down_store (BackendError "connection refused"))
    as ((H1 & _) & (H2 & _) & (H3 & _)); [reflexivity | lia |].
  exact (conj H1 (conj H2 H3)).
Defined.

(** C4, as the specification states it, fails: behind a backend that
    refuses the query, none of the three operations ends in a failure. *)
Lemma write_errors_not_propagated :
  fault_at down_store 0 = Some (BackendError "connection refused") ∧
  fst (saveGame (fun _ => "doc") sample_game down_store)
    ≠ Thrown (BackendError "connection refused") ∧
  fst (deleteGameNbrSaves "g2" 1 down_store)
    ≠ Thrown (BackendError "connection refused") ∧
  fst (purgeUnfinishedGames None down_store)
    ≠ Thrown (BackendError "connection refused").
Proof. by vm_compute. Qed.

(** ** Cleaning the saves of a finished game *)

Lemma purgeUnfinishedGames_run (arg : option string) (s : Store) :
  let days := purge_days (match arg with
                          | Some v => Some v
                          | None => env_MAX_GAME_DAYS s
                          end) in
  let s1 := after_query (DeletePurge days) s in
  purgeUnfinishedGames arg s =
  match fault_at s 0 with
  | Some e => (Returned tt, record_log (ConsoleWarn (message e)) s1)
  | None =>
      (Returned tt,
       record_log
         (ConsoleLogPurged
            (length (games s) - length (delete_purge (clock s) days (games s))))
         (with_games (delete_purge (clock s) days (games s)) s1))
  end.
Proof.
  simpl. unfold purgeUnfinishedGames, bind.
  destruct (fault_at s 0) as [e|] eqn:E.
  - by rewrite (client_query_fail _ _ _ E).
  - by rewrite (client_query_run _ _ E).
Qed.

(** The whole chain of [cleanSaves], by the outcome of each query. *)
Lemma cleanSaves_run (g : GameId) (s : Store) :
  let hi := sql_max (save_id <$> rows_of_game g (games s)) in
  let s1 := after_query (SelectMaxSaveId g) s in
  let s2 := after_query (DeleteTrim g hi) s1 in
  let s3 := after_query (UpdateFinished g)
              (with_games (delete_trim g hi (games s)) s2) in
  cleanSaves g s =
  match fault_at s 0 with
  | Some e => (Thrown e, record_log (ConsoleError ["PostgreSQL"; "cleanSaves0"] e) s1)
  | None =>
      match fault_at s 1 with
      | Some e =>
          (Thrown e, record_log (ConsoleError ["PostgreSQL"; "cleanSaves1"] e) s2)
      | None =>
          match fault_at s 2 with
          | Some e =>
              (Thrown e,
               record_log (ConsoleError ["PostgreSQL"; "cleanSaves2"] e) s3)
          | None =>
              purgeUnfinishedGames None
                (with_games
                   (update_finished g (delete_trim g hi (games s))) s3)
          end
      end
  end.
Proof.
  simpl. unfold cleanSaves, getMaxSaveId, bind.
  destruct (fault_at s 0) as [e0|] eqn:E0.
  { by rewrite (client_query_fail _ _ _ E0). }
  rewrite (client_query_run _ _ E0). simpl.
  set (hi := sql_max (save_id <$> rows_of_game g (games s))).
  set (s1 := after_query (SelectMaxSaveId g) s).
  assert (E1' : fault_at s1 0 = fault_at s 1) by apply fault_at_after_query.
  destruct (fault_at s 1) as [e1|] eqn:E1.
  { destruct hi as [h|] eqn:Eh; simpl;
      by rewrite (client_query_fail _ _ _ E1'). }
  assert (E2' : ∀ gs q, fault_at (with_games gs (after_query q s1)) 0 = fault_at s 2).
  { intros gs q.
    change (fault_at (with_games gs (after_query q s1)) 0)
      with (fault_at (after_query q s1) 0).
    unfold s1. by rewrite !fault_at_after_query. }
  destruct (fault_at s 2) as [e2|] eqn:E2.
  { destruct hi as [h|] eqn:Eh; simpl;
      rewrite (client_query_run _ _ E1'); simpl.
    - match goal with |- context [client_query (UpdateFinished g) ?st] =>
        rewrite (client_query_fail (UpdateFinished g) st e2) end; [done|].
      apply (E2' _ (DeleteTrim g (Some h))).
    - match goal with |- context [client_query (UpdateFinished g) ?st] =>
        rewrite (client_query_fail (UpdateFinished g) st e2) end; [done|].
      apply (E2' _ (DeleteTrim g None)). }
  destruct hi as [h|] eqn:Eh; simpl;
    rewrite (client_query_run _ _ E1'); simpl.
  - match goal with |- context [client_query (UpdateFinished g) ?st] =>
      rewrite (client_query_run (UpdateFinished g) st) end; [done|].
    apply (E2' _ (DeleteTrim g (Some h))).
  - match goal with |- context [client_query (UpdateFinished g) ?st] =>
      rewrite (client_query_run (UpdateFinished g) st) end; [done|].
    apply (E2' _ (DeleteTrim g None)).
Qed.

Lemma issued_since_app (s s' : Store) (qs : list Sql) :
  issued s' = issued s ++ qs → issued_since s s' = qs.
Proof. intros H. unfold issued_since. by rewrite H, drop_app_length. Qed.

(** The statements [cleanSaves] hands to the backend: each one is sent
    only when the one before it ran. *)
Lemma cleanSaves_issued (g : GameId) (s : Store) :
  let hi := sql_max (save_id <$> rows_of_game g (games s)) in
  issued_since s (snd (cleanSaves g s)) =
  SelectMaxSaveId g ::
  match fault_at s 0 with
  | Some _ => []
  | None =>
      DeleteTrim g hi ::
      match fault_at s 1 with
      | Some _ => []
      | None =>
          UpdateFinished g ::
          match fault_at s 2 with
          | Some _ => []
          | None => [DeletePurge (purge_days (env_MAX_GAME_DAYS s))]
          end
      end
  end.
Proof.
  simpl. pose proof (cleanSaves_run g s) as Hrun. simpl in Hrun. rewrite Hrun.
  destruct (fault_at s 0); [by apply issued_since_app|].
  destruct (fault_at s 1); [apply issued_since_app; simpl; by rewrite <- !app_assoc|].
  destruct (fault_at s 2); [apply issued_since_app; simpl; by rewrite <- !app_assoc|].
  pose proof (purgeUnfinishedGames_run None) as Hp. simpl in Hp. rewrite Hp.
  match goal with |- context [fault_at ?st 0] => destruct (fault_at st 0) end;
    apply issued_since_app; simpl; by rewrite <- !app_assoc.
Qed.

(** C3: when the backend fails the trimming delete, [cleanSaves] ends
    with that error, the relation (and so every status) is as before, and
    neither the status update nor the purge is sent; the status update is
    sent only when the trim ran, and the purge only when the status
    update ran, in that order. *)
Theorem cleanSaves_step_order (g : GameId) (s : Store) :
  let s' := snd (cleanSaves g s) in
  let new := issued_since s s' in
  (∀ e, fault_at s 0 = None → fault_at s 1 = Some e →
     fst (cleanSaves g s) = Thrown e ∧ games s' = games s ∧
     (UpdateFinished g ∉ new) ∧ (∀ d, DeletePurge d ∉ new)) ∧
  (UpdateFinished g ∈ new → fault_at s 0 = None ∧ fault_at s 1 = None) ∧
  (∀ d, DeletePurge d ∈ new →
     fault_at s 0 = None ∧ fault_at s 1 = None ∧ fault_at s 2 = None) ∧
  new `prefix_of`
    [SelectMaxSaveId g;
     DeleteTrim g (sql_max (save_id <$> rows_of_game g (games s)));
     UpdateFinished g;
     DeletePurge (purge_days (env_MAX_GAME_DAYS s))].
Proof.
  simpl. pose proof (cleanSaves_issued g s) as Hnew. simpl in Hnew.
  rewrite Hnew. clear Hnew.
  pose proof (cleanSaves_run g s) as Hrun. simpl in Hrun.
  split; [|split; [|split]]; cycle 3.
  { destruct (fault_at s 0), (fault_at s 1), (fault_at s 2);
      by eexists. }
  - intros e E0 E1. rewrite Hrun, E0, E1. simpl.
    repeat split; [|intros d]; intros Hin;
      repeat (apply elem_of_cons in Hin as [?|Hin]; [done|]);
      by apply elem_of_nil in Hin.
  - intros Hin.
    destruct (fault_at s 0), (fault_at s 1); try done;
      repeat (apply elem_of_cons in Hin as [?|Hin]; [done|]);
      by apply elem_of_nil in Hin.
  - intros d Hin.
    destruct (fault_at s 0), (fault_at s 1), (fault_at s 2); try done;
      repeat (apply elem_of_cons in Hin as [?|Hin]; [done|]);
      by apply elem_of_nil in Hin.
Qed.

Lemma cleanSaves_step_order_witness :
  fst (cleanSaves "g2" trim_down_store) = Thrown (BackendError "deadlock detected") ∧
  games (snd (cleanSaves "g2" trim_down_store)) = games trim_down_store ∧
  issued_since trim_down_store (snd (cleanSaves "g2" trim_down_store)) =
    [SelectMaxSaveId "g2"; DeleteTrim "g2" (Some 2)].
Proof.
  destruct (cleanSaves_step_order "g2" trim_down_store) as (H & _ & _ & _).
  destruct (H (BackendError "deadlock detected") eq_refl eq_refl)
    as (H1 & H2 & _).
  split; [exact H1|]. split; [exact H2|]. reflexivity.
Defined.

(** X21, what the trim and the status update achieve: when the three first
    queries run, the game has a version 0 row, no negative version, and
    none of its rows is old enough for the purge, the versions left are
    0 and the highest one, and every row left is [finished]. *)
Lemma cleanSaves_keeps_origin_and_latest (g : GameId) (s : Store) (hi : Z) :
  fault_at s 0 = None → fault_at s 1 = None → fault_at s 2 = None →
  sql_max (save_id <$> rows_of_game g (games s)) = Some hi →
  (∃ r, r ∈ games s ∧ game_id r = g ∧ save_id r = 0) →
  (∀ r, r ∈ games s → game_id r = g →
        0 <= save_id r ∧
        ¬ expired (clock s) (purge_days (env_MAX_GAME_DAYS s)) r) →
  let s' := snd (cleanSaves g s) in
  fst (cleanSaves g s) = Returned tt ∧
  (∀ v, v ∈ select_save_ids g (games s') ↔ v = 0 ∨ v = hi) ∧
  (∀ r, r ∈ games s' → game_id r = g → status r = finished).
Proof.
  intros E0 E1 E2 Hmax (r0 & Hr0 & Hg0 & Hv0) Hok. simpl.
  pose proof (cleanSaves_run g s) as Hrun. simpl in Hrun.
  rewrite Hrun, E0, E1, E2, Hmax. clear Hrun.
  pose proof (purgeUnfinishedGames_run None) as Hp. simpl in Hp. rewrite Hp.
  clear Hp.
  set (kept := update_finished g (delete_trim g (Some hi) (games s))).
  assert (Hkept : ∀ r, r ∈ kept ∧ game_id r = g ↔
            ∃ r1, r1 ∈ games s ∧ game_id r1 = g ∧ r = set_status finished r1 ∧
                  (save_id r1 = 0 ∨ save_id r1 = hi)).
  { intros r. unfold kept, update_finished, delete_trim.
    rewrite list_elem_of_fmap. split.
    - intros [(r1 & -> & Hr1) Hg]. apply list_elem_of_filter in Hr1 as [Hnt Hr1].
      exists r1. case_decide as Hd; [|done].
      destruct (Hok r1 Hr1 Hd) as [Hnn _].
      assert (save_id r1 <= hi).
      { apply (sql_max_upper _ _ _ Hmax), list_elem_of_fmap_2.
        by apply list_elem_of_filter. }
      repeat split; try done.
      unfold trimmed in Hnt. simpl in Hnt.
      destruct (decide (save_id r1 = 0)); [by left|right].
      destruct (decide (save_id r1 = hi)); [done|].
      exfalso. apply Hnt. repeat split; [done|lia|lia].
    - intros (r1 & Hr1 & Hg1 & -> & Hv). split; [|done].
      exists r1. rewrite decide_True by done. split; [done|].
      apply list_elem_of_filter. split; [|done].
      unfold trimmed. simpl. intros (_ & ? & ?). lia. }
  assert (Hfinal : ∀ gs, (gs = kept ∨
                    gs = delete_purge (clock s) (purge_days (env_MAX_GAME_DAYS s)) kept) →
            (∀ v, v ∈ select_save_ids g gs ↔ v = 0 ∨ v = hi) ∧
            (∀ r, r ∈ gs → game_id r = g → status r = finished)).
  { intros gs Hgs.
    assert (Hin : ∀ r, game_id r = g → (r ∈ gs ↔ r ∈ kept)).
    { intros r Hg. destruct Hgs as [->| ->]; [done|].
      unfold delete_purge. rewrite list_elem_of_filter. split; [tauto|].
      intros Hr. split; [|done].
      destruct (proj1 (Hkept r) (conj Hr Hg)) as (r1 & Hr1 & Hg1 & -> & _).
      by destruct (Hok r1 Hr1 Hg1). }
    split.
    - intros v. unfold select_save_ids, rows_of_game.
      rewrite elem_of_remove_dups, list_elem_of_fmap. split.
      + intros (r & -> & Hr). apply list_elem_of_filter in Hr as [Hg Hr].
        apply (Hin r Hg) in Hr.
        by destruct (proj1 (Hkept r) (conj Hr Hg)) as (r1 & _ & _ & -> & Hv).
      + intros Hv.
        assert (∃ r1, r1 ∈ games s ∧ game_id r1 = g ∧ save_id r1 = v)
          as (r1 & Hr1 & Hg1 & Hv1).
        { destruct Hv as [->| ->]; [by exists r0|].
          apply sql_max_elem, list_elem_of_fmap in Hmax as (r1 & -> & Hr1).
          apply list_elem_of_filter in Hr1 as [? ?]. by exists r1. }
        exists (set_status finished r1). split; [done|].
        apply list_elem_of_filter. split; [done|].
        apply Hin; [done|]. apply (Hkept (set_status finished r1)).
        exists r1. repeat split; try done.
        destruct Hv as [->| ->]; [by left|by right].
    - intros r Hr Hg. apply (Hin r Hg) in Hr.
      by destruct (proj1 (Hkept r) (conj Hr Hg)) as (r1 & _ & _ & -> & _). }
  match goal with |- context [fault_at ?st 0] => destruct (fault_at st 0) end;
    simpl; (split; [done|]); apply Hfinal; [by left|by right].
Qed.

Lemma cleanSaves_keeps_origin_and_latest_fresh :
  fst (cleanSaves "g2" fresh_store) = Returned tt ∧
  select_save_ids "g2" (games (snd (cleanSaves "g2" fresh_store))) = [0; 2] ∧
  (∀ r, r ∈ games (snd (cleanSaves "g2" fresh_store)) →
        game_id r = "g2" → status r = finished).
Proof.
  destruct (cleanSaves_keeps_origin_and_latest "g2" fresh_store 2)
    as (H1 & _ & H3); try reflexivity.
  - eexists. split; [left|]. done.
  - intros r Hr Hg. simpl in Hr.
    repeat (apply elem_of_cons in Hr as [->|Hr];
            [split; [by vm_compute | by vm_compute]|]).
    by apply elem_of_nil in Hr.
  - split; [exact H1|]. split; [reflexivity | exact H3].
Defined.

(** C2 fails on the code: g2 has versions 0, 1 and 2 and its origin is
    older than the ten days of the purge.  [cleanSaves] completes, and the
    purge it ends with has deleted the origin it had just kept: the
    versions left are [2], not [0; 2]. *)
Theorem cleanSaves_purges_kept_origin :
  pk_unique (games aged_store) ∧
  select_save_ids "g2" (games aged_store) = [0; 1; 2] ∧
  fst (cleanSaves "g2" aged_store) = Returned tt ∧
  fst (getSaveIds "g2" (snd (cleanSaves "g2" aged_store))) = Returned [2].
Proof.
  split; [|by vm_compute].
  apply (bool_decide_unpack _). by vm_compute.
Qed.

(** ** The purge sweep *)

(** C8: when its query runs, [purgeUnfinishedGames] with a threshold of
    [d] days leaves exactly the rows created at or after [now - d days],
    each as it was and whatever its status; the result relation is not
    touched. *)
Theorem purgeUnfinishedGames_deletes_exactly_expired
    (arg : option string) (s : Store) :
  fault_at s 0 = None →
  let d := purge_days (match arg with
                       | Some v => Some v
                       | None => env_MAX_GAME_DAYS s
                       end) in
  let s' := snd (purgeUnfinishedGames arg s) in
  (∀ r, r ∈ games s' ↔ r ∈ games s ∧ ¬ created_time r < clock s - one_day * d) ∧
  games s' = filter (fun r => clock s - one_day * d <= created_time r) (games s) ∧
  game_results s' = game_results s.
Proof.
  intros E. simpl.
  pose proof (purgeUnfinishedGames_run arg s) as Hp. simpl in Hp.
  rewrite Hp, E. simpl. unfold delete_purge, expired. split; [|split; [|done]].
  - intros r. rewrite list_elem_of_filter. tauto.
  - apply list_filter_iff. intros r. lia.
Qed.

Lemma purgeUnfinishedGames_deletes_exactly_expired_witness :
  games (snd (purgeUnfinishedGames (Some "3") aged_store)) =
  [mkGameRow "g2" 3 2 "e2" running (11 * one_day);
   mkGameRow "g3" 2 0 "f0" running (11 * one_day)].
Proof.
  destruct (purgeUnfinishedGames_deletes_exactly_expired (Some "3") aged_store)
    as (_ & H & _); [reflexivity|].
  rewrite H. reflexivity.
Defined.

(** ** Re-saving a version *)

Lemma filter_unique_key {A K} `{EqDecision K} (f : A → K) (l : list A) (r : A) :
  NoDup (f <$> l) → r ∈ l → filter (fun x => f x = f r) l = [r].
Proof.
  induction l as [|x l IH]; intros Hnd Hr; [by apply elem_of_nil in Hr|].
  rewrite fmap_cons in Hnd. apply NoDup_cons in Hnd as [Hx Hnd].
  apply elem_of_cons in Hr as [->|Hr].
  - rewrite filter_cons_True by done. f_equal.
    apply filter_none. intros y Hy Heq. apply Hx. rewrite <- Heq.
    by apply list_elem_of_fmap_2.
  - rewrite filter_cons_False; [by apply IH|].
    intros Heq. apply Hx. rewrite Heq. by apply list_elem_of_fmap_2.
Qed.

Lemma has_key_pk (g : GameId) (v : Z) (r : GameRow) :
  has_key g v r ↔ pk r = (g, v).
Proof. unfold has_key, pk. split; [by intros [-> ->] | by intros [= -> ->]]. Qed.

Lemma pk_set_game (g : GameId) (v : Z) (doc : string) (gs : list GameRow) :
  pk <$> ((fun r => if decide (has_key g v r) then set_game doc r else r) <$> gs)
  = pk <$> gs.
Proof.
  rewrite <- list_fmap_compose. apply list_fmap_ext.
  intros i r _. simpl. by case_decide.
Qed.

(** The upsert keeps the primary key. *)
Lemma upsert_game_pk_unique now g v doc n gs :
  pk_unique gs → pk_unique (upsert_game now g v doc n gs).
Proof.
  unfold pk_unique, upsert_game. intros Hnd. case_decide as Hex.
  - by rewrite pk_set_game.
  - rewrite fmap_app. apply NoDup_app. split; [done|]. split.
    + intros k Hk Hin. apply list_elem_of_singleton in Hin as ->.
      apply list_elem_of_fmap in Hk as (r & Hpk & Hr).
      apply Hex, Exists_exists. exists r. split; [done|].
      by apply has_key_pk.
    + apply NoDup_singleton.
Qed.

(** After an upsert the key has exactly one row, holding the document. *)
Lemma upsert_game_row now g v doc n gs :
  pk_unique gs →
  ∃ r, filter (has_key g v) (upsert_game now g v doc n gs) = [r] ∧ game r = doc.
Proof.
  intros Hnd. pose proof (upsert_game_pk_unique now g v doc n gs Hnd) as Hnd'.
  unfold upsert_game in *. case_decide as Hex.
  - apply Exists_exists in Hex as (r0 & Hr0 & Hk0).
    exists (set_game doc r0). split; [|done].
    rewrite (list_filter_iff _ (fun x => pk x = pk (set_game doc r0))).
    + apply filter_unique_key; [done|].
      apply list_elem_of_fmap. exists r0. by rewrite decide_True.
    + intros x. rewrite has_key_pk. apply has_key_pk in Hk0.
      unfold pk in *. simpl. by rewrite Hk0.
  - eexists. rewrite filter_app, filter_none.
    + rewrite filter_cons_True by done. by split.
    + intros x Hx Hk. apply Hex, Exists_exists. eauto.
Qed.

(** C9: starting from a relation that respects its primary key, two
    calls of [saveGame] with the same identifier, version, document and
    players, the second at any later time, both succeed and leave exactly
    one row for the key, holding the document. *)
Theorem saveGame_twice_one_row (toJSON : Game → string) (gm : Game)
    (s : Store) (later : Z) :
  pk_unique (games s) →
  fault_at s 0 = None →
  fault_at s 1 = None →
  let first := saveGame toJSON gm s in
  let second := saveGame toJSON gm (with_clock later (snd first)) in
  fst first = Returned (bump gm) ∧
  fst second = Returned (bump gm) ∧
  ∃ r, filter (has_key (id gm) (lastSaveId gm)) (games (snd second)) = [r]
       ∧ game r = toJSON gm.
Proof.
  intros Hpk E0 E1. simpl. unfold saveGame, bind.
  rewrite (client_query_run _ s E0). simpl.
  match goal with |- context [client_query ?q ?st] =>
    rewrite (client_query_run q st) end.
  2:{ change (fault_at (after_query
                (UpsertGame (id gm) (lastSaveId gm) (toJSON gm)
                   (Z.of_nat (length (getPlayers gm)))) s) 0 = None).
      by rewrite fault_at_after_query. }
  simpl. do 2 (split; [done|]).
  apply upsert_game_row. by apply upsert_game_pk_unique.
Qed.

Lemma saveGame_twice_one_row_witness :
  ∃ r, filter (has_key "g2" 1)
         (games (snd (saveGame (fun _ => "doc") sample_game
                        (with_clock 200
                           (snd (saveGame (fun _ => "doc") sample_game
                                   stale_store)))))) = [r]
       ∧ game r = "doc".
Proof.
  destruct (saveGame_twice_one_row (fun _ => "doc") sample_game stale_store 200)
    as (_ & _ & H).
  - apply (bool_decide_unpack _). by vm_compute.
  - reflexivity.
  - reflexivity.
  - exact H.
Defined.

(** ** Recording results *)


Section Results.

Context {GameOptions Score : Type}.
Variable clonedGamedId : GameOptions → option GameId.
Variable options_text : GameOptions → string.
Variable JSON_stringify : list Score → string.




End Results.




(** ** The retention threshold *)

Ltac by_cases_on_code :=
  repeat (match goal with
          | |- context [?a <=? ?b] => destruct (Z.leb_spec a b)
          | |- context [?a <? ?b] => destruct (Z.ltb_spec a b)
          | |- context [?a =? ?b] => destruct (Z.eqb_spec a b)
          end; simpl);
  intros; try done; try lia.

Lemma digit_val_decimal (c : ascii) :
  is_decimal_digit c = true →
  digit_val 10 c = Some (Z.of_N (N_of_ascii c) - 48).
Proof.
  unfold is_decimal_digit, digit_val.
  generalize (Z.of_N (N_of_ascii c)). intros n. by_cases_on_code.
Qed.

Lemma digit_val_not_decimal (c : ascii) :
  is_decimal_digit c = false → digit_val 10 c = None.
Proof.
  unfold is_decimal_digit, digit_val.
  generalize (Z.of_N (N_of_ascii c)). intros n. by_cases_on_code.
Qed.

Lemma digit_val_hex (c : ascii) :
  is_hex_digit c = true → digit_val 16 c = Some (hex_digit_value c).
Proof.
  unfold is_hex_digit, digit_val, hex_digit_value.
  generalize (Z.of_N (N_of_ascii c)). intros n. by_cases_on_code.
Qed.

Lemma digit_val_not_hex (c : ascii) :
  is_hex_digit c = false → digit_val 16 c = None.
Proof.
  unfold is_hex_digit, digit_val.
  generalize (Z.of_N (N_of_ascii c)). intros n. by_cases_on_code.
Qed.

Lemma decimal_digit_not_ws (c : ascii) :
  is_decimal_digit c = true → is_ws c = false.
Proof.
  unfold is_decimal_digit, is_ws.
  generalize (Z.of_N (N_of_ascii c)). intros n. by_cases_on_code.
Qed.

Lemma decimal_digit_not_sign (c : ascii) :
  is_decimal_digit c = true → is_sign c = false.
Proof.
  intros Hc. unfold is_sign. apply bool_decide_eq_false.
  intros [->| ->]; discriminate Hc.
Qed.

Lemma decimal_digit_not_radix_mark (c : ascii) :
  is_decimal_digit c = true → is_radix_mark c = false.
Proof.
  intros Hc. unfold is_radix_mark. apply bool_decide_eq_false.
  intros [->| ->]; discriminate Hc.
Qed.

Lemma digits_prefix_decimal (ds rest : list ascii) :
  forallb is_decimal_digit ds = true →
  starts_with is_decimal_digit rest = false →
  digits_prefix 10 (ds ++ rest) =
  (fun c => Z.of_N (N_of_ascii c) - 48) <$> ds.
Proof.
  intros Hds Hrest. induction ds as [|c ds IH]; simpl in *.
  - destruct rest as [|c t]; [done|]. simpl. by rewrite digit_val_not_decimal.
  - apply andb_prop in Hds as [Hc Hds].
    rewrite (digit_val_decimal _ Hc). by rewrite IH.
Qed.

Lemma digits_prefix_hex (hs rest : list ascii) :
  forallb is_hex_digit hs = true →
  starts_with is_hex_digit rest = false →
  digits_prefix 16 (hs ++ rest) = hex_digit_value <$> hs.
Proof.
  intros Hhs Hrest. induction hs as [|c hs IH]; simpl in *.
  - destruct rest as [|c t]; [done|]. simpl. by rewrite digit_val_not_hex.
  - apply andb_prop in Hhs as [Hc Hhs].
    rewrite (digit_val_hex _ Hc). by rewrite IH.
Qed.

Lemma math_int_decimal (ds : list ascii) :
  math_int 10 ((fun c => Z.of_N (N_of_ascii c) - 48) <$> ds) = decimal_value ds.
Proof.
  unfold math_int, decimal_value. generalize 0.
  induction ds as [|c ds IH]; intros acc; [done|]. simpl. apply IH.
Qed.

Lemma math_int_hex (hs : list ascii) :
  math_int 16 (hex_digit_value <$> hs) = hex_value hs.
Proof.
  unfold math_int, hex_value. generalize 0.
  induction hs as [|c hs IH]; intros acc; [done|]. simpl. apply IH.
Qed.

Lemma skip_ws_app (ws l : list ascii) :
  forallb is_ws ws = true → skip_ws (ws ++ l) = skip_ws l.
Proof.
  induction ws as [|c ws IH]; [done|]. simpl.
  intros [Hc Hws]%andb_prop. rewrite Hc. by apply IH.
Qed.

Lemma skip_ws_id (l : list ascii) :
  starts_with is_ws l = false → skip_ws l = l.
Proof. destruct l as [|c l]; [done|]. simpl. by intros ->. Qed.

Lemma parseInt_body (ws S : list ascii) :
  forallb is_ws ws = true →
  starts_with is_ws S = false →
  parseInt (string_of_list_ascii (ws ++ S)) = parse_body S.
Proof.
  intros Hws HS. unfold parseInt.
  by rewrite list_ascii_of_string_of_list_ascii, skip_ws_app, skip_ws_id.
Qed.

Lemma read_sign_text (sg : Sign) (B : list ascii) :
  (sg = NoSign → starts_with is_sign B = false) →
  read_sign (sign_text sg ++ B) = (sign_factor sg, B).
Proof.
  intros HB. destruct sg; simpl; [|done..].
  destruct B as [|c t]; [done|]. simpl.
  specialize (HB eq_refl). simpl in HB.
  apply bool_decide_eq_false in HB.
  rewrite !decide_False; [done|tauto..].
Qed.

Lemma sign_text_not_ws (sg : Sign) (B : list ascii) :
  (sg = NoSign → starts_with is_ws B = false) →
  starts_with is_ws (sign_text sg ++ B) = false.
Proof. intros HB. destruct sg; simpl; [by apply HB|done..]. Qed.

Lemma read_radix_no_digit (B : list ascii) :
  starts_with is_decimal_digit B = false → read_radix B = (10, B).
Proof.
  intros HB. unfold read_radix. destruct B as [|c0 [|c1 t]]; [done..|].
  rewrite decide_False; [done|]. intros [-> _]. discriminate HB.
Qed.

Lemma read_radix_decimal (ds rest : list ascii) :
  ds ≠ [] →
  forallb is_decimal_digit ds = true →
  ¬ (ds = ["0"%char] ∧ starts_with is_radix_mark rest = true) →
  read_radix (ds ++ rest) = (10, ds ++ rest).
Proof.
  intros Hne Hds Hx. destruct ds as [|c0 ds]; [done|]. simpl in *.
  apply andb_prop in Hds as [_ Hds].
  destruct ds as [|c1 ds]; simpl in *.
  - destruct rest as [|c1 t]; [done|]. rewrite decide_False; [done|].
    intros [-> Hc1]. apply Hx. split; [done|]. simpl.
    by apply bool_decide_eq_true.
  - apply andb_prop in Hds as [Hc1 _]. rewrite decide_False; [done|].
    intros [_ Hm]. apply decimal_digit_not_radix_mark in Hc1.
    by apply bool_decide_eq_false in Hc1.
Qed.

Lemma read_radix_hex (x : ascii) (t : list ascii) :
  is_radix_mark x = true → read_radix ("0"%char :: x :: t) = (16, t).
Proof.
  intros Hx%bool_decide_eq_true. unfold read_radix. by rewrite decide_True.
Qed.

(** [parseInt] on each shape of text. *)
Lemma parseInt_leading_integer (l : list ascii) (r : option Z) :
  leading_integer l r →
  parseInt (string_of_list_ascii l) =
  match r with
  | None => NaN
  | Some n => to_double n
  end.
Proof.
  intros [ws sg rest Hws Hrest Hnd
         |ws sg ds rest Hws Hne Hds Hrest Hx
         |ws sg x hs rest Hws Hx Hne Hhs Hrest
         |ws sg x rest Hws Hx Hrest].
  - rewrite parseInt_body;
      [|done|apply sign_text_not_ws; intros Hsg; apply (Hrest Hsg)].
    unfold parse_body.
    rewrite read_sign_text by (intros Hsg; apply (Hrest Hsg)).
    rewrite read_radix_no_digit by done.
    destruct rest as [|c t]; [done|]. simpl in *.
    by rewrite digit_val_not_decimal.
  - assert (starts_with is_decimal_digit (ds ++ rest) = true) as Hhead.
    { destruct ds as [|c ds]; [done|]. simpl in *.
      by apply andb_prop in Hds as [? _]. }
    assert (starts_with is_ws (ds ++ rest) = false ∧
            starts_with is_sign (ds ++ rest) = false) as [Hw Hs].
    { destruct (ds ++ rest) as [|c t]; [done|]. simpl in *.
      split; [by apply decimal_digit_not_ws|by apply decimal_digit_not_sign]. }
    rewrite parseInt_body; [|done|by apply sign_text_not_ws].
    unfold parse_body. rewrite read_sign_text by done.
    rewrite read_radix_decimal by done.
    rewrite digits_prefix_decimal by done.
    rewrite <- math_int_decimal. by destruct ds.
  - rewrite parseInt_body; [|done|by apply sign_text_not_ws].
    unfold parse_body. rewrite read_sign_text by done.
    rewrite read_radix_hex by done.
    rewrite digits_prefix_hex by done.
    rewrite <- math_int_hex. by destruct hs.
  - rewrite parseInt_body; [|done|by apply sign_text_not_ws].
    unfold parse_body. rewrite read_sign_text by done.
    rewrite read_radix_hex by done.
    destruct rest as [|c t]; [done|]. simpl in *.
    by rewrite digit_val_not_hex.
Qed.

(** Every text has one of the shapes. *)
Lemma span_run (P : ascii → bool) (l : list ascii) :
  ∃ run rest, l = run ++ rest ∧ forallb P run = true ∧
              starts_with P rest = false.
Proof.
  induction l as [|c l (run & rest & -> & Hrun & Hrest)].
  - by exists [], [].
  - destruct (P c) eqn:Hc.
    + exists (c :: run), rest. simpl. by rewrite Hc.
    + exists [], (c :: run ++ rest). by simpl.
Qed.

Lemma skip_ws_split (l : list ascii) :
  ∃ ws, l = ws ++ skip_ws l ∧ forallb is_ws ws = true ∧
        starts_with is_ws (skip_ws l) = false.
Proof.
  induction l as [|c l (ws & Hl & Hws & Hs)].
  - by exists [].
  - simpl. destruct (is_ws c) eqn:Hc.
    + exists (c :: ws). simpl. rewrite Hc. by rewrite <- Hl.
    + exists []. by simpl.
Qed.

Lemma body_has_shape (ws : list ascii) (sg : Sign) (B : list ascii) :
  forallb is_ws ws = true →
  (sg = NoSign →
   starts_with is_ws B = false ∧ starts_with is_sign B = false) →
  ∃ r, leading_integer (ws ++ sign_text sg ++ B) r.
Proof.
  intros Hws HB.
  destruct (starts_with is_decimal_digit B) eqn:Hd.
  2:{ eexists. by apply leading_none. }
  assert ((∃ x t, B = "0"%char :: x :: t ∧ is_radix_mark x = true) ∨
          ¬ (∃ x t, B = "0"%char :: x :: t ∧ is_radix_mark x = true))
    as [(x & t & -> & Hx)|Hnohex].
  { destruct B as [|c0 [|x t]];
      [right; by intros (? & ? & ? & ?)..|].
    destruct (decide (c0 = "0"%char)) as [->|Hc0].
    - destruct (is_radix_mark x) eqn:Hx; [left; eauto|].
      right. intros (x' & t' & Heq & Hx'). injection Heq as -> ->. congruence.
    - right. intros (x' & t' & Heq & _). by injection Heq. }
  - destruct (span_run is_hex_digit t) as (hs & rest & -> & Hhs & Hrest).
    destruct hs as [|h hs].
    + eexists. by apply leading_hex_none.
    + eexists. by apply leading_hex.
  - destruct (span_run is_decimal_digit B) as (ds & rest & -> & Hds & Hrest).
    eexists. apply leading_decimal; try done.
    + intros ->. simpl in Hd. congruence.
    + intros [-> Hx]. apply Hnohex.
      destruct rest as [|x t]; [done|]. by exists x, t.
Qed.

Lemma every_text_has_shape (l : list ascii) : ∃ r, leading_integer l r.
Proof.
  destruct (skip_ws_split l) as (ws & Hl & Hws & Hs). rewrite Hl.
  destruct (skip_ws l) as [|c t] eqn:HS.
  - apply (body_has_shape ws NoSign []); done.
  - destruct (decide (c = "-"%char)) as [->|Hm].
    { apply (body_has_shape ws Minus t); done. }
    destruct (decide (c = "+"%char)) as [->|Hp].
    { apply (body_has_shape ws Plus t); done. }
    apply (body_has_shape ws NoSign (c :: t)); [done|].
    intros _. split; [done|]. simpl. apply bool_decide_eq_false. tauto.
Qed.

Lemma to_double_small (n : Z) :
  - 2 ^ 53 <= n <= 2 ^ 53 → to_double n = Num n.
Proof.
  intros Hn. unfold to_double.
  destruct (Z.leb_spec (Z.abs n) (2 ^ 53)); [done|lia].
Qed.

Lemma round_to_double_overflow (n : Z) :
  2 ^ 1024 <= n → round_to_double n = None.
Proof.
  intros Hn. unfold round_to_double.
  assert (0 < n) as Hpos.
  { pose proof (Z.pow_pos_nonneg 2 1024). lia. }
  assert (1024 <= Z.log2 n) as Hlog.
  { rewrite <- (Z.log2_pow2 1024) by lia. by apply Z.log2_le_mono. }
  set (e := Z.log2 n - 52).
  assert (972 <= e) as He by (unfold e; lia).
  pose proof (Z.log2_spec n Hpos) as [Hlo _].
  replace (Z.log2 n) with (52 + e) in Hlo by (unfold e; lia).
  rewrite Z.pow_add_r in Hlo by lia.
  assert (0 < 2 ^ e) as Hpe by (apply Z.pow_pos_nonneg; lia).
  set (q := Z.shiftr n e).
  assert (2 ^ 52 <= q) as Hq.
  { unfold q. rewrite Z.shiftr_div_pow2 by lia.
    apply Z.div_le_lower_bound; lia. }
  match goal with |- context [if ?b then q + 1 else q] => set (up := b) end.
  assert (2 ^ 1024 <= Z.shiftl (if up then q + 1 else q) e) as Hv.
  { rewrite Z.shiftl_mul_pow2 by lia.
    assert (2 ^ 1024 <= 2 ^ 52 * 2 ^ e) as Hb.
    { rewrite <- Z.pow_add_r by lia. apply Z.pow_le_mono_r; lia. }
    assert (2 ^ 52 <= (if up then q + 1 else q)) by (destruct up; lia).
    nia. }
  destruct (Z.ltb_spec (Z.shiftl (if up then q + 1 else q) e) (2 ^ 1024));
    [lia|done].
Qed.

Lemma to_double_overflow (n : Z) :
  2 ^ 1024 <= Z.abs n → ∃ negative, to_double n = Infinity negative.
Proof.
  intros Hn. unfold to_double.
  assert (2 ^ 53 < 2 ^ 1024) by (apply Z.pow_lt_mono_r; lia).
  destruct (Z.leb_spec (Z.abs n) (2 ^ 53)); [lia|].
  rewrite round_to_double_overflow by done. eauto.
Qed.

(** C7, as the code has it.  The threshold is ten days when the value is
    absent.  Otherwise the value is read as [parseInt] reads it: white
    space, at most one sign, and the longest run of decimal digits, or of
    hexadecimal digits after [0x] or [0X]; what follows the run is
    ignored.  With no digit the threshold is ten days; with digits it is
    their signed integer as a double, that is the integer itself up to
    [2 ^ 53] in absolute value, and ten days again from [2 ^ 1024] on,
    where the double is infinite.  Every value has one of these
    shapes. *)
Theorem purge_days_reads_leading_integer :
  purge_days None = 10 ∧
  (∀ l r, leading_integer l r →
          purge_days (Some (string_of_list_ascii l)) = days_of_reading r) ∧
  (∀ l, ∃ r, leading_integer l r) ∧
  (∀ n, - 2 ^ 53 <= n <= 2 ^ 53 → days_of_reading (Some n) = n) ∧
  (∀ n, 2 ^ 1024 <= Z.abs n → days_of_reading (Some n) = 10).
Proof.
  split; [done|]. split; [|split; [|split]].
  - intros l r Hl. unfold purge_days. simpl.
    rewrite (parseInt_leading_integer l r Hl).
    destruct r as [n|]; [|done]. simpl. by destruct (to_double n).
  - apply every_text_has_shape.
  - intros n Hn. simpl. by rewrite to_double_small.
  - intros n Hn. simpl. by destruct (to_double_overflow n Hn) as [b ->].
Qed.

(** C7, as the specification states it, fails: ["7days"] is not a valid
    integer, and the threshold is seven days, not ten. *)
Lemma purge_days_accepts_trailing_text :
  decimal_literal "7days" = None ∧
  spec_purge_days (Some "7days") = 10 ∧
  purge_days (Some "7days") = 7.
Proof. by vm_compute. Qed.

Lemma purge_days_reads_leading_integer_witness :
  purge_days (Some " 42") = 42 ∧
  purge_days (Some "0x1f") = 31 ∧
  purge_days (Some "abc7") = 10 ∧
  purge_days (Some "-7days") = -7.
Proof.
  destruct purge_days_reads_leading_integer as (_ & H & _ & _ & _).
  split; [|split; [|split]].
  - apply (H _ _ (leading_decimal [" "%char] NoSign ["4"%char; "2"%char] []
                    eq_refl ltac:(discriminate) eq_refl eq_refl
                    ltac:(by intros [? ?]))).
  - apply (H _ _ (leading_hex [] NoSign "x"%char ["1"%char; "f"%char] []
                    eq_refl eq_refl ltac:(discriminate) eq_refl eq_refl)).
  - apply (H _ _ (leading_none [] NoSign
                    ["a"%char; "b"%char; "c"%char; "7"%char]
                    eq_refl ltac:(by intros _) eq_refl)).
  - apply (H _ _ (leading_decimal [] Minus ["7"%char]
                    ["d"%char; "a"%char; "y"%char; "s"%char]
                    eq_refl ltac:(discriminate) eq_refl eq_refl
                    ltac:(by intros [? ?]))).
Defined.

(** A literal of 310 digits is a valid integer, and its double is
    infinite: the threshold is ten days. *)
Lemma purge_days_overflowing_literal :
  purge_days
    (Some (string_of_list_ascii ("1"%char :: replicate 309 "0"%char))) = 10.
Proof. by vm_compute. Qed.

Lemma purge_days_rounded_literal :
  purge_days (Some "9007199254740993") = 9007199254740992.
Proof. by vm_compute. Qed.

(** ** The primary keys are kept by every statement *)

Lemma filter_pk_unique (P : GameRow → Prop) `{!∀ r, Decision (P r)}
    (gs : list GameRow) :
  pk_unique gs → pk_unique (filter P gs).
Proof.
  unfold pk_unique. intros Hnd.
  eapply sublist_NoDup; [exact Hnd | apply fmap_sublist, sublist_filter].
Qed.

Lemma update_finished_pk (g : GameId) (gs : list GameRow) :
  pk <$> update_finished g gs = pk <$> gs.
Proof.
  unfold update_finished. rewrite <- list_fmap_compose.
  apply list_fmap_ext. intros i r _. simpl. by case_decide.
Qed.

Lemma delete_recent_sublist (g : GameId) (n : Z) (gs : list GameRow) :
  sublist (delete_recent g n gs) gs.
Proof.
  unfold delete_recent.
  set (tagged := imap (fun i r => (i, r)) gs).
  assert (Hgs : snd <$> tagged = gs).
  { assert (Htag : ∀ (h : nat → nat) (l : list GameRow),
              snd <$> imap (fun i r => (h i, r)) l = l).
    { intros h l. revert h. induction l as [|r l IH]; intros h; [done|].
      simpl. f_equal. apply (IH (h ∘ S)). }
    apply (Htag (fun i => i)). }
  clearbody tagged. subst gs. apply fmap_sublist, sublist_filter.
Qed.

Lemma sql_exec_keeps_keys (now : Z) (q : Sql) (gs gs' : list GameRow)
    (rs rs' : list ResultRow) (res : QueryResult (row_of q)) :
  pk_unique gs → results_pk_unique rs →
  sql_exec now q gs rs = inr (res, gs', rs') →
  pk_unique gs' ∧ results_pk_unique rs'.
Proof.
  intros Hgs Hrs. destruct q; simpl; try (by intros [= <- <- <-]).
  - unfold insert_result. case_decide as Hin; [done|]. intros [= <- <- <-].
    split; [done|]. unfold results_pk_unique in *. rewrite fmap_app.
    apply NoDup_app. split; [done|]. split; [|apply NoDup_singleton].
    intros k Hk ->%list_elem_of_singleton. done.
  - intros [= <- <- <-]. split; [|done]. by apply filter_pk_unique.
  - intros [= <- <- <-]. split; [|done].
    unfold pk_unique. by rewrite update_finished_pk.
  - intros [= <- <- <-]. split; [|done]. by apply filter_pk_unique.
  - intros [= <- <- <-]. split; [|done]. by apply upsert_game_pk_unique.
  - intros [= <- <- <-]. split; [|done]. unfold pk_unique in *.
    eapply sublist_NoDup; [done | apply fmap_sublist, delete_recent_sublist].
Qed.

Lemma client_query_keeps_keys (q : Sql) (s : Store) :
  pk_unique (games s) → results_pk_unique (game_results s) →
  pk_unique (games (snd (client_query q s))) ∧
  results_pk_unique (game_results (snd (client_query q s))).
Proof.
  intros Hgs Hrs. unfold client_query.
  destruct (fault_at s 0); [done|]. simpl.
  destruct (sql_exec (clock s) q (games s) (game_results s))
    as [e|[[res gs'] rs']] eqn:E; [done|].
  simpl. by apply (sql_exec_keeps_keys _ _ _ _ _ _ _ Hgs Hrs E).
Qed.

(** ** Listing the versions of a game *)

Lemma foldl_push {A} (acc l : list A) :
  foldl (fun allSaveIds row => allSaveIds ++ [row]) acc l = acc ++ l.
Proof.
  revert acc. induction l as [|x l IH]; intros acc; simpl.
  - by rewrite app_nil_r.
  - by rewrite IH, <- app_assoc.
Qed.

Lemma elem_of_select_save_ids (g : GameId) (gs : list GameRow) (v : Z) :
  v ∈ select_save_ids g gs ↔ ∃ r, r ∈ gs ∧ game_id r = g ∧ save_id r = v.
Proof.
  unfold select_save_ids, rows_of_game.
  rewrite elem_of_remove_dups, list_elem_of_fmap. split.
  - intros (r & -> & [? ?]%list_elem_of_filter). eauto.
  - intros (r & ? & ? & <-). exists r. by rewrite list_elem_of_filter.
Qed.

(** X1: [getSaveIds] rejects with the backend's error, without logging
    it; otherwise it returns every version number of the game exactly
    once, and the empty list for a game that has no row. *)
Theorem getSaveIds_lists_each_version_once (g : GameId) (s : Store) :
  match fault_at s 0 with
  | Some e => getSaveIds g s = (Thrown e, after_query (SelectSaveIds g) s)
  | None =>
      ∃ l, getSaveIds g s = (Returned l, after_query (SelectSaveIds g) s) ∧
           NoDup l ∧
           ∀ v, v ∈ l ↔ ∃ r, r ∈ games s ∧ game_id r = g ∧ save_id r = v
  end.
Proof.
  unfold getSaveIds, bind.
  destruct (fault_at s 0) as [e|] eqn:E.
  - by rewrite (client_query_fail _ _ _ E).
  - rewrite (client_query_run _ _ E). simpl. rewrite foldl_push. simpl.
    eexists. split; [done|]. split.
    + apply NoDup_remove_dups.
    + apply elem_of_select_save_ids.
Qed.

(** ** The highest version *)

Lemma rows_of_game_none (g : GameId) (gs : list GameRow) :
  (∀ r, r ∈ gs → game_id r ≠ g) → rows_of_game g gs = [].
Proof. intros H. apply filter_none. intros r Hr Hg. by apply (H r). Qed.

Lemma sql_max_None (xs : list Z) : sql_max xs = None → xs = [].
Proof. by destruct xs. Qed.

(** X2: when its query runs, [getMaxSaveId] calls back without an error
    and with [null] for a game that has no row, and otherwise with a
    version number that a row of the game carries and that no row of the
    game exceeds; it never calls back with [undefined] then. *)
Theorem getMaxSaveId_highest {A} (cb : option Error → Loaded Z → M A)
    (g : GameId) (s : Store) :
  fault_at s 0 = None →
  ∃ v, getMaxSaveId g cb s = cb None v (after_query (SelectMaxSaveId g) s) ∧
       match v with
       | Undefined => False
       | Null => ∀ r, r ∈ games s → game_id r ≠ g
       | Value hi =>
           (∃ r, r ∈ games s ∧ game_id r = g ∧ save_id r = hi) ∧
           ∀ r, r ∈ games s → game_id r = g → save_id r <= hi
       end.
Proof.
  intros E. unfold getMaxSaveId, bind. rewrite (client_query_run _ _ E). simpl.
  destruct (sql_max (save_id <$> rows_of_game g (games s))) as [hi|] eqn:Hmax.
  - exists (Value hi). split; [done|]. split.
    + apply sql_max_elem, list_elem_of_fmap in Hmax as (r & -> & Hr).
      apply list_elem_of_filter in Hr as [? ?]. eauto.
    + intros r Hr Hg. apply (sql_max_upper _ _ _ Hmax), list_elem_of_fmap_2.
      by apply list_elem_of_filter.
  - exists Null. split; [done|]. intros r Hr Hg.
    apply sql_max_None, fmap_nil_inv in Hmax.
    assert (r ∈ rows_of_game g (games s)) as Hin by by apply list_elem_of_filter.
    rewrite Hmax in Hin. by apply elem_of_nil in Hin.
Qed.

Lemma getMaxSaveId_highest_witness :
  ∃ v, getMaxSaveId "g2" (fun err v => ret (err, v)) fresh_store =
       (Returned (None, v), after_query (SelectMaxSaveId "g2") fresh_store) ∧
       match v with
       | Undefined => False
       | Null => ∀ r, r ∈ games fresh_store → game_id r ≠ "g2"
       | Value hi =>
           (∃ r, r ∈ games fresh_store ∧ game_id r = "g2" ∧ save_id r = hi) ∧
           ∀ r, r ∈ games fresh_store → game_id r = "g2" → save_id r <= hi
       end.
Proof.
  apply (getMaxSaveId_highest (fun err v => ret (err, v)) "g2" fresh_store).
  reflexivity.
Defined.

(** ** Cleaning up: edge cases and composition *)

Lemma fault_at_with_games (gs : list GameRow) (s : Store) (i : nat) :
  fault_at (with_games gs s) i = fault_at s i.
Proof. reflexivity. Qed.

Lemma delete_trim_null (g : GameId) (gs : list GameRow) :
  delete_trim g None gs = gs.
Proof.
  unfold delete_trim. induction gs as [|r gs IH]; [done|].
  rewrite filter_cons_True; [by rewrite IH|].
  unfold trimmed. simpl. tauto.
Qed.

Lemma update_finished_absent (g : GameId) (gs : list GameRow) :
  (∀ r, r ∈ gs → game_id r ≠ g) → update_finished g gs = gs.
Proof.
  unfold update_finished. induction gs as [|r gs IH]; intros H; [done|].
  simpl. rewrite decide_False by (apply H; left).
  f_equal. apply IH. intros r' Hr'. apply H. by right.
Qed.

(** X3: [cleanSaves] does not fail fast on a game that has no row: the
    maximum comes back as [null], not [undefined], so the trim (with a
    NULL bound), the status update and the purge are all sent, the call
    completes normally, and the only rows that change are those the
    purge deletes. *)
Theorem cleanSaves_unknown_game_runs_purge (g : GameId) (s : Store) :
  (∀ r, r ∈ games s → game_id r ≠ g) →
  fault_at s 0 = None → fault_at s 1 = None → fault_at s 2 = None →
  let s' := snd (cleanSaves g s) in
  let days := purge_days (env_MAX_GAME_DAYS s) in
  fst (cleanSaves g s) = Returned tt ∧
  issued_since s s' =
    [SelectMaxSaveId g; DeleteTrim g None; UpdateFinished g; DeletePurge days] ∧
  games s' =
    match fault_at s 3 with
    | Some _ => games s
    | None => delete_purge (clock s) days (games s)
    end.
Proof.
  intros Hnone E0 E1 E2. simpl.
  pose proof (cleanSaves_issued g s) as Hi. simpl in Hi.
  rewrite Hi, E0, E1, E2. clear Hi.
  pose proof (cleanSaves_run g s) as Hrun. simpl in Hrun.
  rewrite Hrun, E0, E1, E2. clear Hrun.
  rewrite (rows_of_game_none g (games s) Hnone). simpl.
  rewrite delete_trim_null, (update_finished_absent g (games s) Hnone).
  pose proof (purgeUnfinishedGames_run None) as Hp. simpl in Hp. rewrite Hp.
  clear Hp.
  repeat (rewrite fault_at_with_games || rewrite fault_at_after_query).
  by destruct (fault_at s 3).
Qed.

Lemma cleanSaves_unknown_game_runs_purge_witness :
  fst (cleanSaves "g9" aged_store) = Returned tt ∧
  games (snd (cleanSaves "g9" aged_store)) =
    [mkGameRow "g2" 3 1 "e1" running (5 * one_day);
     mkGameRow "g2" 3 2 "e2" running (11 * one_day);
     mkGameRow "g3" 2 0 "f0" running (11 * one_day)].
Proof.
  destruct (cleanSaves_unknown_game_runs_purge "g9" aged_store)
    as (H1 & _ & H3); try reflexivity.
  - intros r Hr. simpl in Hr.
    repeat (apply elem_of_cons in Hr as [->|Hr]; [discriminate|]).
    by apply elem_of_nil in Hr.
  - split; [exact H1|]. rewrite H3. reflexivity.
Defined.

Lemma rows_of_game_filter (g : GameId) (P : GameRow → Prop)
    `{!∀ r, Decision (P r)} (gs : list GameRow) :
  (∀ r, game_id r = g → P r) →
  rows_of_game g (filter P gs) = rows_of_game g gs.
Proof.
  intros HP. unfold rows_of_game. induction gs as [|r gs IH]; [done|].
  destruct (decide (game_id r = g)) as [Hg|Hg].
  - rewrite (filter_cons_True P) by auto.
    rewrite !(filter_cons_True (fun r => game_id r = g)) by done.
    by rewrite IH.
  - rewrite (filter_cons_False (fun r => game_id r = g) r gs) by done.
    destruct (decide (P r)).
    + rewrite (filter_cons_True P) by done.
      by rewrite filter_cons_False.
    + by rewrite (filter_cons_False P).
Qed.

Lemma rows_of_game_update_finished (g g' : GameId) (gs : list GameRow) :
  g' ≠ g → rows_of_game g' (update_finished g gs) = rows_of_game g' gs.
Proof.
  intros Hne. unfold rows_of_game, update_finished.
  induction gs as [|r gs IH]; [done|]. rewrite fmap_cons.
  destruct (decide (game_id r = g)) as [Hg|Hg].
  - rewrite !filter_cons_False; [done| |]; simpl; congruence.
  - destruct (decide (game_id r = g')).
    + rewrite !filter_cons_True by done. by rewrite IH.
    + rewrite !filter_cons_False by done. done.
Qed.

Lemma rows_of_game_delete_purge (g : GameId) (now days : Z)
    (gs : list GameRow) :
  rows_of_game g (delete_purge now days gs) =
  delete_purge now days (rows_of_game g gs).
Proof.
  unfold rows_of_game, delete_purge. induction gs as [|r gs IH]; [done|].
  destruct (decide (expired now days r)), (decide (game_id r = g));
    repeat (first [ rewrite filter_cons_True by tauto
                  | rewrite filter_cons_False by tauto ]);
    by rewrite ?IH.
Qed.

Lemma update_finished_no_running (g : GameId) (gs : list GameRow) (r : GameRow) :
  r ∈ update_finished g gs → game_id r = g → status r = finished.
Proof.
  unfold update_finished. intros (r0 & -> & _)%list_elem_of_fmap.
  by case_decide.
Qed.

(** X4: when its first three queries run, [cleanSaves] completes, every
    row of the game that is left is [finished], and a following
    [getGames] does not list the game, whether the purge ran or not. *)
Theorem cleanSaves_unlists_game (g : GameId) (s : Store) :
  fault_at s 0 = None → fault_at s 1 = None → fault_at s 2 = None →
  let s' := snd (cleanSaves g s) in
  fst (cleanSaves g s) = Returned tt ∧
  (∀ r, r ∈ games s' → game_id r = g → status r = finished) ∧
  (∀ l, fst (getGames s') = Returned l → g ∉ l).
Proof.
  intros E0 E1 E2. simpl.
  pose proof (cleanSaves_run g s) as Hrun. simpl in Hrun.
  rewrite Hrun, E0, E1, E2. clear Hrun.
  pose proof (purgeUnfinishedGames_run None) as Hp. simpl in Hp. rewrite Hp.
  clear Hp.
  set (kept := update_finished g _).
  assert (Hfin : ∀ gs, (gs = kept ∨ ∃ now d, gs = delete_purge now d kept) →
            ∀ r, r ∈ gs → game_id r = g → status r = finished).
  { intros gs [->|(now & d & ->)] r Hr Hg.
    - by apply (update_finished_no_running g _ r Hr).
    - apply list_elem_of_filter in Hr as [_ Hr].
      by apply (update_finished_no_running g _ r Hr). }
  assert (Hlist : ∀ st, (∀ r, r ∈ games st → game_id r = g → status r = finished) →
            ∀ l, fst (getGames st) = Returned l → g ∉ l).
  { intros st Hst l. unfold getGames, bind.
    destruct (fault_at st 0) as [e|] eqn:E.
    - by rewrite (client_query_fail _ _ _ E).
    - rewrite (client_query_run _ _ E). simpl. intros [= <-].
      rewrite elem_of_select_active_games. intros (r & Hr & Hg & Hrun).
      specialize (Hst r Hr Hg). congruence. }
  match goal with |- context [fault_at ?st 0] => destruct (fault_at st 0) end;
    simpl; (split; [done|]).
  - split; [|apply Hlist; simpl]; apply Hfin; by left.
  - split; [|apply Hlist; simpl]; apply Hfin; right; eauto.
Qed.

Lemma cleanSaves_unlists_game_witness :
  fst (cleanSaves "g2" fresh_store) = Returned tt ∧
  fst (getGames (snd (cleanSaves "g2" fresh_store))) = Returned ["g3"].
Proof.
  destruct (cleanSaves_unlists_game "g2" fresh_store) as (H1 & _ & _);
    try reflexivity.
  split; [exact H1 | reflexivity].
Defined.

(** X5: [cleanSaves] of one game reaches the rows of every other game
    through the purge only: when all four queries run, the rows left of
    another game are its rows that are not older than the threshold, in
    their order and unchanged; the older ones are deleted, whatever their
    status. *)
Theorem cleanSaves_purges_other_games (g g' : GameId) (s : Store) :
  g' ≠ g →
  fault_at s 0 = None → fault_at s 1 = None → fault_at s 2 = None →
  fault_at s 3 = None →
  rows_of_game g' (games (snd (cleanSaves g s))) =
  filter (fun r => clock s - one_day * purge_days (env_MAX_GAME_DAYS s)
                   <= created_time r)
         (rows_of_game g' (games s)).
Proof.
  intros Hne E0 E1 E2 E3.
  pose proof (cleanSaves_run g s) as Hrun. simpl in Hrun.
  rewrite Hrun, E0, E1, E2. clear Hrun.
  pose proof (purgeUnfinishedGames_run None) as Hp. simpl in Hp. rewrite Hp.
  clear Hp.
  repeat (rewrite fault_at_with_games || rewrite fault_at_after_query).
  rewrite E3. simpl.
  rewrite rows_of_game_delete_purge, rows_of_game_update_finished by done.
  unfold delete_trim. rewrite rows_of_game_filter.
  - unfold delete_purge. apply list_filter_iff. intros r. unfold expired. lia.
  - intros r Hg [Hg' _]. congruence.
Qed.

Lemma cleanSaves_purges_other_games_witness :
  rows_of_game "g2" (games (snd (cleanSaves "g3" aged_store))) =
  [mkGameRow "g2" 3 1 "e1" running (5 * one_day);
   mkGameRow "g2" 3 2 "e2" running (11 * one_day)].
Proof.
  rewrite (cleanSaves_purges_other_games "g3" "g2" aged_store);
    [reflexivity | discriminate | reflexivity..].
Defined.

(** ** Rolling back *)

Lemma filter_fmap {A B} (f : A → B) (P : B → Prop) `{!∀ y, Decision (P y)}
    (l : list A) :
  filter P (f <$> l) = f <$> filter (fun x => P (f x)) l.
Proof.
  induction l as [|x l IH]; [done|]. rewrite fmap_cons.
  destruct (decide (P (f x))).
  - rewrite !filter_cons_True by done. by rewrite fmap_cons, IH.
  - by rewrite !filter_cons_False by done.
Qed.

Lemma filter_ext_in {A} (P Q : A → Prop) `{!∀ x, Decision (P x)}
    `{!∀ x, Decision (Q x)} (l : list A) :
  (∀ x, x ∈ l → (P x ↔ Q x)) → filter P l = filter Q l.
Proof.
  induction l as [|x l IH]; intros Hext; [done|].
  assert (Hl : filter P l = filter Q l).
  { apply IH. intros y Hy. apply Hext. by right. }
  destruct (decide (P x)) as [HP|HP].
  - rewrite !filter_cons_True; [by rewrite Hl|by apply Hext; [left|]|done].
  - rewrite !filter_cons_False; [done| |done].
    intros HQ. apply HP, Hext; [left|done].
Qed.

Lemma NoDup_fmap_eq {A B} (f : A → B) (l : list A) (x y : A) :
  NoDup (f <$> l) → x ∈ l → y ∈ l → f x = f y → x = y.
Proof.
  induction l as [|z l IH]; intros Hnd Hx Hy Heq; [by apply elem_of_nil in Hx|].
  rewrite fmap_cons in Hnd. apply NoDup_cons in Hnd as [Hz Hnd].
  apply elem_of_cons in Hx as [->|Hx]; apply elem_of_cons in Hy as [->|Hy].
  - done.
  - exfalso. apply Hz. rewrite Heq. by apply list_elem_of_fmap_2.
  - exfalso. apply Hz. rewrite <- Heq. by apply list_elem_of_fmap_2.
  - by apply IH.
Qed.

(** The rows of a relation with their ctid. *)
Lemma snd_tagged (h : nat → nat) (gs : list GameRow) :
  snd <$> imap (fun i r => (h i, r)) gs = gs.
Proof.
  revert h. induction gs as [|r gs IH]; intros h; [done|].
  simpl. f_equal. apply (IH (h ∘ S)).
Qed.

Lemma fst_tagged (h : nat → nat) (gs : list GameRow) :
  fst <$> imap (fun i r => (h i, r)) gs = h <$> seq 0 (length gs).
Proof.
  revert h. induction gs as [|r gs IH]; intros h; [done|].
  simpl. f_equal. rewrite <- fmap_S_seq, <- list_fmap_compose.
  apply (IH (h ∘ S)).
Qed.

Lemma NoDup_fst_tagged (gs : list GameRow) :
  NoDup (fst <$> imap (fun i r => (i, r)) gs).
Proof.
  rewrite (fst_tagged (fun i => i)), list_fmap_id. apply NoDup_seq.
Qed.

#[global] Instance highest_first_total : Total highest_first.
Proof. intros a b. unfold highest_first. lia. Qed.

#[global] Instance highest_first_trans : Transitive highest_first.
Proof. intros a b c. unfold highest_first. lia. Qed.

Section DeleteRecent.

Variable g : GameId.
Variable n : Z.
Variable gs : list GameRow.

Let tagged := imap (fun i r => (i, r)) gs.
Let sorted :=
  merge_sort highest_first (filter (fun p : nat * GameRow => game_id p.2 = g) tagged).
Let victims := take (Z.to_nat n) sorted.
Let survivors := drop (Z.to_nat n) sorted.

Lemma delete_recent_unfold :
  delete_recent g n gs =
  snd <$> filter (fun p => p.1 ∉ fst <$> victims) tagged.
Proof. reflexivity. Qed.

Lemma elem_of_sorted (p : nat * GameRow) :
  p ∈ sorted ↔ p ∈ tagged ∧ game_id p.2 = g.
Proof.
  unfold sorted. rewrite merge_sort_Permutation, list_elem_of_filter. tauto.
Qed.

Lemma NoDup_tagged : NoDup tagged.
Proof. apply (NoDup_fmap_1 fst), NoDup_fst_tagged. Qed.

Lemma NoDup_sorted : NoDup sorted.
Proof.
  unfold sorted. rewrite merge_sort_Permutation.
  apply NoDup_filter, NoDup_tagged.
Qed.

Lemma sorted_split : sorted = victims ++ survivors.
Proof. unfold victims, survivors. by rewrite take_drop. Qed.

Lemma victim_ctid (p : nat * GameRow) :
  p ∈ tagged → (p.1 ∈ fst <$> victims ↔ p ∈ victims).
Proof.
  intros Hp. split; [|apply list_elem_of_fmap_2].
  intros (q & Heq & Hq)%list_elem_of_fmap.
  assert (q ∈ tagged) as Hqt.
  { apply (elem_of_sorted q). rewrite sorted_split, elem_of_app. by left. }
  by rewrite (NoDup_fmap_eq fst tagged p q (NoDup_fst_tagged gs) Hp Hqt Heq).
Qed.

(** The rows of the game that are left are the tail of its rows in
    descending order of [save_id]. *)
Lemma delete_recent_rows :
  rows_of_game g (delete_recent g n gs) ≡ₚ snd <$> survivors.
Proof.
  rewrite delete_recent_unfold. unfold rows_of_game.
  rewrite filter_fmap. apply fmap_Permutation.
  apply NoDup_Permutation.
  - apply NoDup_filter, NoDup_filter, NoDup_tagged.
  - pose proof NoDup_sorted as Hnd. rewrite sorted_split in Hnd.
    by apply NoDup_app in Hnd as (_ & _ & ?).
  - intros p. rewrite !list_elem_of_filter. split.
    + intros (Hg & Hv & Hp).
      assert (p ∈ sorted) as Hs by by apply elem_of_sorted.
      rewrite sorted_split, elem_of_app in Hs. destruct Hs as [Hs|Hs]; [|done].
      exfalso. apply Hv. by apply list_elem_of_fmap_2.
    + intros Hp.
      assert (p ∈ sorted) as Hs.
      { rewrite sorted_split, elem_of_app. by right. }
      apply elem_of_sorted in Hs as [Ht Hg]. split; [done|]. split; [|done].
      rewrite (victim_ctid p Ht). intros Hv.
      pose proof NoDup_sorted as Hnd. rewrite sorted_split in Hnd.
      apply NoDup_app in Hnd as (_ & Hdisj & _). by apply (Hdisj p).
Qed.

Lemma length_sorted : length sorted = length (rows_of_game g gs).
Proof.
  unfold sorted. rewrite merge_sort_Permutation.
  replace (rows_of_game g gs) with (rows_of_game g (snd <$> tagged))
    by (unfold tagged; by rewrite (snd_tagged (fun i => i) gs)).
  unfold rows_of_game. by rewrite filter_fmap, length_fmap.
Qed.

Lemma delete_recent_other_games (g' : GameId) :
  g' ≠ g → rows_of_game g' (delete_recent g n gs) = rows_of_game g' gs.
Proof.
  intros Hne. rewrite delete_recent_unfold. unfold rows_of_game.
  rewrite filter_fmap, list_filter_filter.
  replace (filter (fun r => game_id r = g') gs)
    with (filter (fun r => game_id r = g') (snd <$> tagged))
    by (unfold tagged; by rewrite (snd_tagged (fun i => i) gs)).
  rewrite filter_fmap. f_equal. apply filter_ext_in. intros p Hp. split; [tauto|].
  intros Hg. split; [done|]. rewrite (victim_ctid p Hp). intros Hv.
  assert (p ∈ sorted) as Hs.
  { rewrite sorted_split, elem_of_app. by left. }
  apply elem_of_sorted in Hs as [_ Hg']. congruence.
Qed.

Lemma delete_recent_keeps_oldest (kept gone : GameRow) :
  kept ∈ delete_recent g n gs → game_id kept = g →
  gone ∈ gs → game_id gone = g → gone ∉ delete_recent g n gs →
  save_id kept <= save_id gone.
Proof.
  intros Hk Hkg Hgone Hgg Hnot.
  assert (kept ∈ snd <$> survivors) as (q & -> & Hq)%list_elem_of_fmap.
  { rewrite <- delete_recent_rows. by apply list_elem_of_filter. }
  assert (gone ∈ snd <$> tagged) as (p & -> & Hp)%list_elem_of_fmap.
  { unfold tagged. by rewrite (snd_tagged (fun i => i) gs). }
  assert (p ∈ sorted) as Hs by by apply elem_of_sorted.
  rewrite sorted_split, elem_of_app in Hs. destruct Hs as [Hv|Hs].
  - pose proof (StronglySorted_merge_sort highest_first
                  (filter (fun p : nat * GameRow => game_id p.2 = g) tagged))
      as Hsorted.
    fold sorted in Hsorted. rewrite sorted_split in Hsorted.
    apply StronglySorted_app in Hsorted as (Hord & _ & _).
    apply (Hord p q Hv Hq).
  - exfalso. apply Hnot.
    assert (p.2 ∈ rows_of_game g (delete_recent g n gs)) as Hin.
    { rewrite delete_recent_rows. by apply list_elem_of_fmap_2. }
    by apply list_elem_of_filter in Hin as [_ ?].
Qed.

Lemma delete_recent_length :
  length (rows_of_game g (delete_recent g n gs)) =
  (length (rows_of_game g gs) - Z.to_nat n)%nat.
Proof.
  rewrite delete_recent_rows, length_fmap. unfold survivors.
  by rewrite length_drop, length_sorted.
Qed.

End DeleteRecent.

(** X6: when its query runs, [deleteGameNbrSaves] with a positive count
    [n] removes [n] rows of the game (all of them when it has fewer, the
    origin included), leaves every row it keeps as it was and in place,
    touches no row of another game, and removes the most recent versions:
    no row it keeps has a higher [save_id] than a row it removed. *)
Theorem deleteGameNbrSaves_removes_most_recent (g : GameId) (n : Z) (s : Store) :
  n > 0 →
  fault_at s 0 = None →
  let s' := snd (deleteGameNbrSaves g n s) in
  fst (deleteGameNbrSaves g n s) = Returned tt ∧
  length (rows_of_game g (games s')) =
    (length (rows_of_game g (games s)) - Z.to_nat n)%nat ∧
  games s' `sublist_of` games s ∧
  (∀ g', g' ≠ g → rows_of_game g' (games s') = rows_of_game g' (games s)) ∧
  (∀ kept gone, kept ∈ games s' → game_id kept = g →
                gone ∈ games s → game_id gone = g → gone ∉ games s' →
                save_id kept <= save_id gone).
Proof.
  intros Hn E. simpl. unfold deleteGameNbrSaves, bind.
  rewrite decide_True by done. rewrite (client_query_run _ _ E). simpl.
  split; [done|]. split; [apply delete_recent_length|].
  split; [apply delete_recent_sublist|].
  split; [intros g'; apply delete_recent_other_games|].
  apply delete_recent_keeps_oldest.
Qed.

Lemma deleteGameNbrSaves_removes_most_recent_witness :
  games (snd (deleteGameNbrSaves "g2" 2 fresh_store)) =
    [mkGameRow "g2" 3 0 "e0" running (10 * one_day);
     mkGameRow "g3" 2 0 "f0" running (11 * one_day)] ∧
  length (rows_of_game "g2" (games (snd (deleteGameNbrSaves "g2" 2 fresh_store))))
    = (length (rows_of_game "g2" (games fresh_store)) - Z.to_nat 2)%nat.
Proof.
  split; [reflexivity|].
  apply (deleteGameNbrSaves_removes_most_recent "g2" 2 fresh_store);
    [lia | reflexivity].
Defined.

(** ** Loading a game *)

Lemma fault_at_after_select (s : Store) (i : nat) :
  fault_at (after_select s) i = fault_at s (S i).
Proof. unfold fault_at, after_select; simpl. by destruct (faults s). Qed.

Lemma client_select_run {R} (sem : list GameRow → list R) (s : Store) :
  fault_at s 0 = None →
  client_select sem s = (Returned (inr (selected (sem (games s)))), after_select s).
Proof. intros E. unfold client_select. by rewrite E. Qed.

Lemma client_select_fail {R} (sem : list GameRow → list R) (s : Store) e :
  fault_at s 0 = Some e →
  client_select sem s = (Returned (inl e), after_select s).
Proof. intros E. unfold client_select. by rewrite E. Qed.

#[global] Instance latest_first_total : Total latest_first.
Proof. intros a b. unfold latest_first. lia. Qed.

#[global] Instance latest_first_trans : Transitive latest_first.
Proof. intros a b c. unfold latest_first. lia. Qed.

(** The statement of [getGame] yields nothing for a game without rows,
    and otherwise the document of a row of the game that no other row of
    the game exceeds in [save_id]. *)
Lemma select_latest_spec (g : GameId) (gs : list GameRow) :
  (select_latest g gs = [] ∧ ∀ r, r ∈ gs → game_id r ≠ g) ∨
  ∃ r, select_latest g gs = [game r] ∧ r ∈ gs ∧ game_id r = g ∧
       ∀ r', r' ∈ gs → game_id r' = g → save_id r' <= save_id r.
Proof.
  unfold select_latest.
  pose proof (StronglySorted_merge_sort latest_first (rows_of_game g gs)) as Hs.
  pose proof (merge_sort_Permutation latest_first (rows_of_game g gs)) as Hp.
  destruct (merge_sort latest_first (rows_of_game g gs)) as [|h t].
  - left. split; [done|]. intros r Hr Hg.
    assert (r ∈ rows_of_game g gs) as Hin by by apply list_elem_of_filter.
    rewrite <- Hp in Hin. by apply elem_of_nil in Hin.
  - right. exists h. split; [done|].
    assert (h ∈ rows_of_game g gs) as [Hg Hh]%list_elem_of_filter.
    { rewrite <- Hp. left. }
    do 2 (split; [done|]). intros r' Hr' Hg'.
    assert (r' ∈ h :: t) as Hin.
    { rewrite Hp. by apply list_elem_of_filter. }
    apply StronglySorted_cons in Hs as [Hall _].
    apply elem_of_cons in Hin as [->|Hin]; [done|].
    rewrite Forall_forall in Hall. apply (Hall r' Hin).
Qed.

Lemma getGame_latest_row {SerializedGame A : Type}
    (JSON_parse : string → Error + SerializedGame)
    (cb : option Error → option SerializedGame → M A) (g : GameId)
    (s : Store) (gs : list GameRow) :
  games s = gs →
  fault_at s 0 = None →
  ((∀ r, r ∈ gs → game_id r ≠ g) ∧
   getGame JSON_parse g cb s =
     cb (Some (JsError "Game not found")) None (after_select s)) ∨
  (∃ r, r ∈ gs ∧ game_id r = g ∧
        (∀ r', r' ∈ gs → game_id r' = g → save_id r' <= save_id r) ∧
        getGame JSON_parse g cb s =
          match JSON_parse (game r) with
          | inl e => (Thrown e, after_select s)
          | inr json => cb None (Some json) (after_select s)
          end).
Proof.
  intros <- E. unfold getGame, bind. rewrite (client_select_run _ _ E). simpl.
  destruct (select_latest_spec g (games s)) as [[-> Hnone]|(r & -> & Hr & Hg & Hmax)].
  - by left.
  - right. exists r. do 3 (split; [done|]). by destruct (JSON_parse (game r)).
Qed.

(** X7: when its query runs, [getGame] reports [Game not found] for a
    game without rows; otherwise it parses the document of the game's
    highest version, hands the result to the callback, and lets a parse
    error escape as an exception without calling back. *)
Theorem getGame_loads_highest_version {SerializedGame A : Type}
    (JSON_parse : string → Error + SerializedGame)
    (cb : option Error → option SerializedGame → M A) (g : GameId) (s : Store) :
  fault_at s 0 = None →
  ((∀ r, r ∈ games s → game_id r ≠ g) ∧
   getGame JSON_parse g cb s =
     cb (Some (JsError "Game not found")) None (after_select s)) ∨
  (∃ r, r ∈ games s ∧ game_id r = g ∧
        (∀ r', r' ∈ games s → game_id r' = g → save_id r' <= save_id r) ∧
        getGame JSON_parse g cb s =
          match JSON_parse (game r) with
          | inl e => (Thrown e, after_select s)
          | inr json => cb None (Some json) (after_select s)
          end).
Proof. intros E. by apply getGame_latest_row. Qed.

Lemma getGame_loads_highest_version_witness :
  ((∀ r, r ∈ games fresh_store → game_id r ≠ "g2") ∧
   getGame (fun doc => inr doc) "g2" (fun err doc => ret (err, doc)) fresh_store =
     (Returned (Some (JsError "Game not found"), None), after_select fresh_store)) ∨
  (∃ r, r ∈ games fresh_store ∧ game_id r = "g2" ∧
        (∀ r', r' ∈ games fresh_store → game_id r' = "g2" →
               save_id r' <= save_id r) ∧
        getGame (fun doc => inr doc) "g2" (fun err doc => ret (err, doc))
          fresh_store =
          (Returned (None, Some (game r)), after_select fresh_store)).
Proof.
  apply (getGame_loads_highest_version (fun doc => inr doc)
           (fun err doc => ret (err, doc)) "g2" fresh_store).
  reflexivity.
Defined.

(** X8: when their query runs on a relation without the row they look
    for, [loadCloneableGame] rejects with [Game <id> not found] and
    [getGameVersion] with [Game <id> not found at save_id <n>]; when the
    backend fails, both reject with its error.  Neither logs anything. *)
Theorem loaders_reject_missing_rows {SerializedGame : Type}
    (JSON_parse : string → Error + SerializedGame)
    (g : GameId) (v : Z) (s : Store) :
  (∀ e, fault_at s 0 = Some e →
        loadCloneableGame JSON_parse g s = (Thrown e, after_select s) ∧
        getGameVersion JSON_parse g v s = (Thrown e, after_select s)) ∧
  (fault_at s 0 = None →
   (∀ r, r ∈ games s → ¬ (game_id r = g ∧ save_id r = 0)) →
   loadCloneableGame JSON_parse g s =
     (Thrown (JsError ("Game " +:+ g +:+ " not found")), after_select s)) ∧
  (fault_at s 0 = None →
   (∀ r, r ∈ games s → ¬ (game_id r = g ∧ save_id r = v)) →
   getGameVersion JSON_parse g v s =
     (Thrown (JsError ("Game " +:+ g +:+ " not found at save_id " +:+ pretty v)),
      after_select s)).
Proof.
  unfold loadCloneableGame, getGameVersion, bind. split; [|split].
  - intros e E. by rewrite !(client_select_fail _ _ _ E).
  - intros E Hnone. rewrite (client_select_run _ _ E). simpl.
    unfold select_origin. by rewrite (filter_none _ _ Hnone).
  - intros E Hnone. rewrite (client_select_run _ _ E). simpl.
    unfold select_version. by rewrite (filter_none _ _ Hnone).
Qed.

Lemma loaders_reject_missing_rows_witness :
  loadCloneableGame (fun doc => inr doc) "g9" fresh_store =
    (Thrown (JsError "Game g9 not found"), after_select fresh_store) ∧
  getGameVersion (fun doc => inr doc) "g2" 7 fresh_store =
    (Thrown (JsError "Game g2 not found at save_id 7"), after_select fresh_store).
Proof.
  destruct (loaders_reject_missing_rows (fun doc => inr doc) "g9" 7 fresh_store)
    as (_ & H1 & _).
  destruct (loaders_reject_missing_rows (fun doc => inr doc) "g2" 7 fresh_store)
    as (_ & _ & H2).
  split.
  - apply H1; [reflexivity|]. intros r Hr [Hg _]. simpl in Hr.
    repeat (apply elem_of_cons in Hr as [->|Hr]; [discriminate|]).
    by apply elem_of_nil in Hr.
  - apply H2; [reflexivity|]. intros r Hr [_ Hv]. simpl in Hr.
    repeat (apply elem_of_cons in Hr as [->|Hr]; [discriminate|]).
    by apply elem_of_nil in Hr.
Defined.

(** ** Saving and reading back *)

Lemma saveGame_run (toJSON : Game → string) (gm : Game) (s : Store) :
  fault_at s 0 = None →
  saveGame toJSON gm s =
  (Returned (bump gm),
   with_games
     (upsert_game (clock s) (id gm) (lastSaveId gm) (toJSON gm)
        (Z.of_nat (length (getPlayers gm))) (games s))
     (after_query
        (UpsertGame (id gm) (lastSaveId gm) (toJSON gm)
           (Z.of_nat (length (getPlayers gm)))) s)).
Proof.
  intros E. unfold saveGame, bind. by rewrite (client_query_run _ _ E).
Qed.

Lemma saveGame_fail (toJSON : Game → string) (gm : Game) (s : Store) e :
  fault_at s 0 = Some e →
  saveGame toJSON gm s =
  (Returned gm,
   record_log (ConsoleError ["PostgreSQL:saveGame"] e)
     (after_query
        (UpsertGame (id gm) (lastSaveId gm) (toJSON gm)
           (Z.of_nat (length (getPlayers gm)))) s)).
Proof.
  intros E. unfold saveGame, bind. by rewrite (client_query_fail _ _ _ E).
Qed.

Lemma upsert_game_other_keys now g v doc n gs g' v' :
  (g', v') ≠ (g, v) →
  filter (has_key g' v') (upsert_game now g v doc n gs) =
  filter (has_key g' v') gs.
Proof.
  intros Hne. unfold upsert_game. case_decide as Hex.
  - clear Hex. induction gs as [|r gs IH]; [done|]. rewrite fmap_cons.
    destruct (decide (has_key g v r)) as [Hk|Hk].
    + rewrite !filter_cons_False; [done| |].
      * intros [? ?]. destruct Hk. apply Hne. congruence.
      * intros [? ?]. destruct Hk. apply Hne. simpl in *. congruence.
    + destruct (decide (has_key g' v' r)).
      * rewrite !filter_cons_True by done. by rewrite IH.
      * by rewrite !filter_cons_False by done.
  - rewrite filter_app, filter_cons_False, filter_nil, app_nil_r; [done|].
    intros [? ?]. apply Hne. simpl in *. congruence.
Qed.

Lemma upsert_game_existing now g v doc n gs r0 :
  pk_unique gs → r0 ∈ gs → has_key g v r0 →
  filter (has_key g v) (upsert_game now g v doc n gs) = [set_game doc r0].
Proof.
  intros Hnd Hr0 Hk0.
  pose proof (upsert_game_pk_unique now g v doc n gs Hnd) as Hnd'.
  unfold upsert_game in *. rewrite decide_True in *
    by (apply Exists_exists; eauto).
  rewrite (list_filter_iff _ (fun x => pk x = pk (set_game doc r0))).
  - apply filter_unique_key; [done|].
    apply list_elem_of_fmap. exists r0. by rewrite decide_True.
  - intros x. rewrite has_key_pk. apply has_key_pk in Hk0.
    unfold pk in *. simpl. by rewrite Hk0.
Qed.

Lemma upsert_game_versions now g v doc n gs r :
  r ∈ upsert_game now g v doc n gs → game_id r = g →
  save_id r = v ∨ ∃ r0, r0 ∈ gs ∧ game_id r0 = g ∧ save_id r0 = save_id r.
Proof.
  unfold upsert_game. case_decide as Hex.
  - intros (r0 & -> & Hr0)%list_elem_of_fmap Hg. right. exists r0.
    by case_decide.
  - intros [Hr| ->%list_elem_of_singleton]%elem_of_app Hg; [right|by left].
    by exists r.
Qed.

(** X9: after a successful [saveGame] of a version that is not below any
    stored version of the game, [getGame] reads back the document just
    saved: the callback gets [JSON.parse] of it. *)
Theorem saveGame_then_getGame {SerializedGame A : Type}
    (toJSON : Game → string) (JSON_parse : string → Error + SerializedGame)
    (cb : option Error → option SerializedGame → M A) (gm : Game) (s : Store) :
  pk_unique (games s) →
  fault_at s 0 = None →
  fault_at s 1 = None →
  (∀ r, r ∈ games s → game_id r = id gm → save_id r <= lastSaveId gm) →
  let s1 := snd (saveGame toJSON gm s) in
  getGame JSON_parse (id gm) cb s1 =
  match JSON_parse (toJSON gm) with
  | inl e => (Thrown e, after_select s1)
  | inr json => cb None (Some json) (after_select s1)
  end.
Proof.
  intros Hpk E0 E1 Hle. simpl. rewrite (saveGame_run _ _ _ E0). simpl.
  set (gs' := upsert_game _ _ _ _ _ _).
  set (s1 := with_games gs' _).
  assert (E : fault_at s1 0 = None).
  { unfold s1. by rewrite fault_at_with_games, fault_at_after_query. }
  destruct (upsert_game_row (clock s) (id gm) (lastSaveId gm) (toJSON gm)
              (Z.of_nat (length (getPlayers gm))) (games s) Hpk)
    as (r1 & Hf & Hdoc).
  fold gs' in Hf.
  assert (r1 ∈ gs' ∧ has_key (id gm) (lastSaveId gm) r1) as [Hr1 [Hg1 Hv1]].
  { assert (r1 ∈ filter (has_key (id gm) (lastSaveId gm)) gs') as Hin
      by (rewrite Hf; left).
    apply list_elem_of_filter in Hin. tauto. }
  destruct (getGame_latest_row JSON_parse cb (id gm) s1 gs' eq_refl E)
    as [[Hnone _]|(r & Hr & Hg & Hmax & ->)].
  { exfalso. by apply (Hnone r1 Hr1). }
  assert (save_id r = lastSaveId gm) as Hv.
  { apply Z.le_antisymm.
    - destruct (upsert_game_versions _ _ _ _ _ _ _ Hr Hg)
        as [->|(r0 & Hr0 & Hg0 & <-)]; [done|by apply Hle].
    - rewrite <- Hv1. by apply Hmax. }
  assert (r ∈ filter (has_key (id gm) (lastSaveId gm)) gs') as Hin
    by by apply list_elem_of_filter.
  rewrite Hf in Hin. apply list_elem_of_singleton in Hin as ->.
  by rewrite Hdoc.
Qed.

Lemma saveGame_then_getGame_witness :
  getGame (fun doc => inr doc) "g2" (fun err doc => ret (err, doc))
    (snd (saveGame (fun _ => "e3") (mkGame "g2" 3 ["p1"; "p2"; "p3"]) fresh_store))
  = (Returned (None, Some "e3"),
     after_select
       (snd (saveGame (fun _ => "e3") (mkGame "g2" 3 ["p1"; "p2"; "p3"])
               fresh_store))).
Proof.
  apply (saveGame_then_getGame (fun _ => "e3") (fun doc => inr doc)
           (fun err doc => ret (err, doc)) (mkGame "g2" 3 ["p1"; "p2"; "p3"])
           fresh_store).
  - apply (bool_decide_unpack _). by vm_compute.
  - reflexivity.
  - reflexivity.
  - intros r Hr Hg. simpl in Hr.
    repeat (apply elem_of_cons in Hr as [->|Hr]; [by vm_compute|]).
    by apply elem_of_nil in Hr.
Defined.

(** X10: a version saved by [saveGame] can be read back by its number:
    [getGameVersion] of the game's identifier and the saved version
    resolves to [JSON.parse] of the saved document (or rejects with the
    parse error), and so does [loadCloneableGame] when the saved version
    is 0. *)
Theorem saveGame_then_getGameVersion {SerializedGame : Type}
    (toJSON : Game → string) (JSON_parse : string → Error + SerializedGame)
    (gm : Game) (s : Store) :
  pk_unique (games s) →
  fault_at s 0 = None →
  fault_at s 1 = None →
  let s1 := snd (saveGame toJSON gm s) in
  let read :=
    match JSON_parse (toJSON gm) with
    | inl e => (Thrown e, after_select s1)
    | inr json => (Returned json, after_select s1)
    end in
  getGameVersion JSON_parse (id gm) (lastSaveId gm) s1 = read ∧
  (lastSaveId gm = 0 → loadCloneableGame JSON_parse (id gm) s1 = read).
Proof.
  intros Hpk E0 E1. simpl. rewrite (saveGame_run _ _ _ E0). simpl.
  set (gs' := upsert_game _ _ _ _ _ _).
  set (s1 := with_games gs' _).
  assert (E : fault_at s1 0 = None).
  { unfold s1. by rewrite fault_at_with_games, fault_at_after_query. }
  destruct (upsert_game_row (clock s) (id gm) (lastSaveId gm) (toJSON gm)
              (Z.of_nat (length (getPlayers gm))) (games s) Hpk)
    as (r1 & Hf & Hdoc).
  fold gs' in Hf. split.
  - unfold getGameVersion, bind. rewrite (client_select_run _ _ E). simpl.
    unfold select_version.
    change (filter _ gs') with (filter (has_key (id gm) (lastSaveId gm)) gs').
    rewrite Hf. simpl. rewrite Hdoc. by destruct (JSON_parse (toJSON gm)).
  - intros Hv. unfold loadCloneableGame, bind.
    rewrite (client_select_run _ _ E). simpl. unfold select_origin.
    rewrite Hv in Hf.
    change (filter _ gs') with (filter (has_key (id gm) 0) gs').
    rewrite Hf. simpl. rewrite Hdoc. by destruct (JSON_parse (toJSON gm)).
Qed.

Lemma saveGame_then_getGameVersion_witness :
  getGameVersion (fun doc => inr doc) "g2" 1
    (snd (saveGame (fun _ => "doc") sample_game stale_store))
  = (Returned "doc",
     after_select (snd (saveGame (fun _ => "doc") sample_game stale_store))).
Proof.
  apply (saveGame_then_getGameVersion (fun _ => "doc") (fun doc => inr doc)
           sample_game stale_store).
  - apply (bool_decide_unpack _). by vm_compute.
  - reflexivity.
  - reflexivity.
Defined.

(** X11: [saveGame] touches one key only: whatever the backend does, the
    rows of every other (game, version) pair are after the call what they
    were before, and the results relation is unchanged. *)
Theorem saveGame_leaves_other_versions (toJSON : Game → string) (gm : Game)
    (s : Store) (g' : GameId) (v' : Z) :
  (g', v') ≠ (id gm, lastSaveId gm) →
  filter (has_key g' v') (games (snd (saveGame toJSON gm s))) =
    filter (has_key g' v') (games s) ∧
  game_results (snd (saveGame toJSON gm s)) = game_results s.
Proof.
  intros Hne. destruct (fault_at s 0) as [e|] eqn:E.
  - by rewrite (saveGame_fail _ _ _ _ E).
  - rewrite (saveGame_run _ _ _ E). simpl. split; [|done].
    by apply upsert_game_other_keys.
Qed.

Lemma saveGame_leaves_other_versions_witness :
  filter (has_key "g2" 0)
    (games (snd (saveGame (fun _ => "doc") sample_game stale_store)))
  = [mkGameRow "g2" 3 0 "e0" running 7].
Proof.
  destruct (saveGame_leaves_other_versions (fun _ => "doc") sample_game
              stale_store "g2" 0) as [H _]; [discriminate|].
  rewrite H. reflexivity.
Defined.

(** X12: the upsert of [saveGame] writes the document only.  When the
    key is already stored, its row keeps its player count, status and
    creation time, so that a finished version stays finished; when the
    key is new, a row is appended with the caller's player count, status
    [running] and the current time, so that [getGames] has a running row
    of the game to list. *)
Theorem saveGame_row_columns (toJSON : Game → string) (gm : Game) (s : Store) :
  pk_unique (games s) →
  fault_at s 0 = None →
  let s1 := snd (saveGame toJSON gm s) in
  (∀ r0, r0 ∈ games s → has_key (id gm) (lastSaveId gm) r0 →
     filter (has_key (id gm) (lastSaveId gm)) (games s1) =
       [mkGameRow (game_id r0) (players r0) (save_id r0) (toJSON gm)
          (status r0) (created_time r0)]) ∧
  ((∀ r, r ∈ games s → ¬ has_key (id gm) (lastSaveId gm) r) →
     games s1 =
       games s ++
       [mkGameRow (id gm) (Z.of_nat (length (getPlayers gm))) (lastSaveId gm)
          (toJSON gm) running (clock s)] ∧
     has_running_row (id gm) (games s1)).
Proof.
  intros Hpk E. simpl. rewrite (saveGame_run _ _ _ E). simpl. split.
  - intros r0 Hr0 Hk. by apply upsert_game_existing.
  - intros Hnone. unfold upsert_game. rewrite decide_False.
    + split; [done|]. eexists. split; [apply elem_of_app; right; left|]. done.
    + intros (r & Hr & Hk)%Exists_exists. by apply (Hnone r).
Qed.

Lemma saveGame_row_columns_witness :
  filter (has_key "g1" 1)
    (games (snd (saveGame (fun _ => "d1'") (mkGame "g1" 1 ["p1"]) stale_store)))
  = [mkGameRow "g1" 2 1 "d1'" finished 6].
Proof.
  destruct (saveGame_row_columns (fun _ => "d1'") (mkGame "g1" 1 ["p1"])
              stale_store) as [H _].
  - apply (bool_decide_unpack _). by vm_compute.
  - reflexivity.
  - apply (H (mkGameRow "g1" 2 1 "d1" finished 6)).
    + right; left.
    + by split.
Defined.

(** ** Finding a game by participant *)

Section Participants.

Variable doc_player_ids : string → list string.
Variable doc_spectator_id : string → option string.

Lemma elem_of_select_by_player (id : string) (gs : list GameRow) (g : GameId) :
  g ∈ select_by_player doc_player_ids id gs ↔
  ∃ r, r ∈ gs ∧ save_id r = 0 ∧ id ∈ doc_player_ids (game r) ∧ game_id r = g.
Proof.
  unfold select_by_player. rewrite list_elem_of_bind. split.
  - intros (r & Hg & [Hv Hr]%list_elem_of_filter).
    apply list_elem_of_bind in Hg as (e & Hg & He).
    case_decide as Heq; [|by apply elem_of_nil in Hg].
    apply list_elem_of_singleton in Hg as ->. subst e. eauto.
  - intros (r & Hr & Hv & Hid & <-). exists r.
    split; [|by apply list_elem_of_filter].
    apply list_elem_of_bind. exists id. split; [|done].
    rewrite decide_True by done. left.
Qed.

Lemma elem_of_select_by_spectator (id : string) (gs : list GameRow) (g : GameId) :
  g ∈ select_by_spectator doc_spectator_id id gs ↔
  ∃ r, r ∈ gs ∧ save_id r = 0 ∧ doc_spectator_id (game r) = Some id ∧
       game_id r = g.
Proof.
  unfold select_by_spectator. rewrite list_elem_of_fmap. split.
  - intros (r & -> & [[? ?] ?]%list_elem_of_filter). eauto.
  - intros (r & ? & ? & ? & <-). exists r. by rewrite list_elem_of_filter.
Qed.

Lemma getGameId_run {A} (id : string) (cb : option Error → option GameId → M A)
    (s : Store) (sem : list GameRow → list GameId) (P : GameRow → Prop) :
  fault_at s 0 = None →
  (∀ g, g ∈ sem (games s) ↔ ∃ r, r ∈ games s ∧ save_id r = 0 ∧ P r ∧ game_id r = g) →
  let run :=
    (do r <- client_select sem;
     match r with
     | inl err =>
         log (ConsoleError ["PostgreSQL:getGameId"] err);; cb (Some err) None
     | inr res =>
         if decide (rowCount res = 0%nat)
         then cb (Some (JsError ("Game for player id " +:+ id +:+ " not found")))
                 None
         else
           match rows res with
           | [] => throw (JsError "Cannot read properties of undefined")
           | gameId :: _ => cb None (Some gameId)
           end
     end) in
  ((∀ r, r ∈ games s → save_id r = 0 → ¬ P r) ∧
   run s = cb (Some (JsError ("Game for player id " +:+ id +:+ " not found")))
             None (after_select s)) ∨
  (∃ r, r ∈ games s ∧ save_id r = 0 ∧ P r ∧
        run s = cb None (Some (game_id r)) (after_select s)).
Proof.
  intros E Hsem. simpl. unfold bind. rewrite (client_select_run _ _ E). simpl.
  destruct (sem (games s)) as [|g l] eqn:Hl; simpl.
  - left. split; [|done]. intros r Hr Hv HP.
    assert (game_id r ∈ @nil GameId) as Hin by (apply Hsem; eauto).
    by apply elem_of_nil in Hin.
  - right. destruct (proj1 (Hsem g)) as (r & Hr & Hv & HP & <-); [left|].
    exists r. by do 3 (split; [done|]).
Qed.

End Participants.

(** X13: [getGameId] throws at once, without a query, for an identifier
    that starts with neither [p] nor [s] (the empty one included).  For
    a player identifier whose query runs, it reports [Game for player id
    ... not found] when no version 0 row lists the player, and otherwise
    calls back with the game of a version 0 row that lists the player;
    likewise for a spectator identifier and the rows' [spectatorId]. *)
Theorem getGameId_resolves {A : Type}
    (doc_player_ids : string → list string)
    (doc_spectator_id : string → option string)
    (id : string) (cb : option Error → option GameId → M A) (s : Store) :
  fault_at s 0 = None →
  let call := getGameId doc_player_ids doc_spectator_id id cb s in
  let missing :=
    cb (Some (JsError ("Game for player id " +:+ id +:+ " not found"))) None
       (after_select s) in
  if decide (charAt0 id = Some "p"%char) then
    ((∀ r, r ∈ games s → save_id r = 0 → id ∉ doc_player_ids (game r)) ∧
     call = missing) ∨
    (∃ r, r ∈ games s ∧ save_id r = 0 ∧ id ∈ doc_player_ids (game r) ∧
          call = cb None (Some (game_id r)) (after_select s))
  else if decide (charAt0 id = Some "s"%char) then
    ((∀ r, r ∈ games s → save_id r = 0 → doc_spectator_id (game r) ≠ Some id) ∧
     call = missing) ∨
    (∃ r, r ∈ games s ∧ save_id r = 0 ∧ doc_spectator_id (game r) = Some id ∧
          call = cb None (Some (game_id r)) (after_select s))
  else
    call =
    (Thrown (JsError ("id " +:+ id +:+ " is neither a player id or spectator id")),
     s).
Proof.
  intros E. simpl. unfold getGameId.
  destruct (decide (charAt0 id = Some "p"%char)) as [Hp|Hp].
  - apply (getGameId_run id cb s _ (fun r => id ∈ doc_player_ids (game r)) E).
    intros g. apply elem_of_select_by_player.
  - destruct (decide (charAt0 id = Some "s"%char)) as [Hs|Hs]; [|done].
    apply (getGameId_run id cb s _
             (fun r => doc_spectator_id (game r) = Some id) E).
    intros g. apply elem_of_select_by_spectator.
Qed.

Lemma getGameId_resolves_witness :
  let call :=
    getGameId party_player_ids (fun _ => None) "p4" (fun err g => ret (err, g))
      party_store in
  ((∀ r, r ∈ games party_store → save_id r = 0 →
         "p4" ∉ party_player_ids (game r)) ∧
   call = (Returned (Some (JsError "Game for player id p4 not found"), None),
           after_select party_store)) ∨
  (∃ r, r ∈ games party_store ∧ save_id r = 0 ∧
        "p4" ∈ party_player_ids (game r) ∧
        call = (Returned (None, Some (game_id r)), after_select party_store)).
Proof.
  apply (getGameId_resolves party_player_ids (fun _ => None) "p4"
           (fun err g => ret (err, g)) party_store).
  reflexivity.
Defined.

Lemma getGameId_party_example :
  fst (getGameId party_player_ids (fun _ => None) "p4"
         (fun err g => ret (err, g)) party_store)
  = Returned (None, Some "g3").
Proof. reflexivity. Qed.

(** ** Invariants of the methods *)

Lemma keeps_ret {A} (I : Store → Prop) (a : A) : keeps I (ret a).
Proof. by intros s Hs. Qed.

Lemma keeps_throw {A} (I : Store → Prop) (e : Error) : keeps I (@throw A e).
Proof. by intros s Hs. Qed.

Lemma keeps_bind {A B} (I : Store → Prop) (m : M A) (k : A → M B) :
  keeps I m → (∀ a, keeps I (k a)) → keeps I (bind m k).
Proof.
  intros Hm Hk s Hs. unfold bind. specialize (Hm s Hs).
  destruct (m s) as [[a|e] s1]; simpl in *; [by apply Hk | done].
Qed.

Lemma keeps_detached (I : Store → Prop) (m : M unit) :
  keeps I m → keeps I (detached m).
Proof.
  intros Hm s Hs. unfold detached. specialize (Hm s Hs).
  by destruct (m s) as [[a|e] s1].
Qed.

Lemma keeps_log_keys (l : LogLine) : keeps keys_ok (log l).
Proof. by intros s Hs. Qed.

Lemma keeps_client_query_keys (q : Sql) : keeps keys_ok (client_query q).
Proof. intros s [? ?]. by apply client_query_keeps_keys. Qed.

Lemma keeps_client_select_keys {R} (sem : list GameRow → list R) :
  keeps keys_ok (client_select sem).
Proof. intros s Hs. unfold client_select. by destruct (fault_at s 0). Qed.

Ltac keeps_step :=
  first
    [ apply keeps_ret
    | apply keeps_throw
    | apply keeps_log_keys
    | apply keeps_client_query_keys
    | apply keeps_client_select_keys
    | apply keeps_detached
    | apply keeps_bind; [|intros ?]
    | match goal with
      | |- keeps _ (match ?x with _ => _ end) => destruct x
      | |- keeps _ (if ?x then _ else _) => destruct x
      end
    | done ].

Lemma keeps_purgeUnfinishedGames (arg : option string) :
  keeps keys_ok (purgeUnfinishedGames arg).
Proof.
  intros s Hs. unfold purgeUnfinishedGames.
  match goal with |- keys_ok (snd (?m s)) => assert (keeps keys_ok m) as Hk end.
  { repeat keeps_step. }
  by apply Hk.
Qed.

(** X14: every method keeps the primary keys of both relations: started
    on a store that respects them, it leaves a store that respects them,
    whatever the backend does and however the method ends.  For the
    methods that take a callback this holds when the callback keeps
    them. *)
Theorem methods_keep_primary_keys {GameOptions Score SerializedGame : Type}
    (clonedGamedId : GameOptions → option GameId)
    (options_text : GameOptions → string)
    (JSON_stringify : list Score → string)
    (toJSON : Game → string)
    (JSON_parse : string → Error + SerializedGame)
    (doc_player_ids : string → list string)
    (doc_spectator_id : string → option string) :
  keeps keys_ok getGames ∧
  (∀ g, keeps keys_ok (getSaveIds g)) ∧
  (∀ g players generations opts scores,
     keeps keys_ok
       (saveGameResults clonedGamedId options_text JSON_stringify
          g players generations opts scores)) ∧
  (∀ g, keeps keys_ok (cleanSaves g)) ∧
  (∀ arg, keeps keys_ok (purgeUnfinishedGames arg)) ∧
  (∀ gm, keeps keys_ok (saveGame toJSON gm)) ∧
  (∀ g n, keeps keys_ok (deleteGameNbrSaves g n)) ∧
  (∀ g, keeps keys_ok (loadCloneableGame JSON_parse g)) ∧
  (∀ g v, keeps keys_ok (getGameVersion JSON_parse g v)) ∧
  (∀ A g (cb : option Error → option Z → M A),
     (∀ e n, keeps keys_ok (cb e n)) → keeps keys_ok (getPlayerCount g cb)) ∧
  (∀ A g (cb : option Error → Loaded Z → M A),
     (∀ e v, keeps keys_ok (cb e v)) → keeps keys_ok (getMaxSaveId g cb)) ∧
  (∀ A g (cb : option Error → option SerializedGame → M A),
     (∀ e d, keeps keys_ok (cb e d)) → keeps keys_ok (getGame JSON_parse g cb)) ∧
  (∀ A id (cb : option Error → option GameId → M A),
     (∀ e g, keeps keys_ok (cb e g)) →
     keeps keys_ok (getGameId doc_player_ids doc_spectator_id id cb)).
Proof.
  repeat apply conj; intros.
  - unfold getGames. repeat keeps_step.
  - unfold getSaveIds. repeat keeps_step.
  - unfold saveGameResults. repeat keeps_step.
  - unfold cleanSaves, getMaxSaveId, throwIf.
    repeat first [apply keeps_purgeUnfinishedGames | keeps_step].
  - apply keeps_purgeUnfinishedGames.
  - unfold saveGame. repeat keeps_step.
  - unfold deleteGameNbrSaves. repeat keeps_step.
  - unfold loadCloneableGame. repeat keeps_step.
  - unfold getGameVersion. repeat keeps_step.
  - unfold getPlayerCount. repeat keeps_step.
  - unfold getMaxSaveId. repeat keeps_step.
  - unfold getGame. repeat keeps_step.
  - unfold getGameId. repeat keeps_step.
Qed.

Lemma methods_keep_primary_keys_witness :
  keys_ok (snd (cleanSaves "g2" fresh_store)) ∧
  keys_ok (snd (deleteGameNbrSaves "g2" 2 fresh_store)).
Proof.
  destruct (methods_keep_primary_keys (GameOptions := unit) (Score := unit)
              (SerializedGame := unit) (fun _ => None) (fun _ => "")
              (fun _ => "") (fun _ => "") (fun _ => inl (JsError ""))
              (fun _ => []) (fun _ => None))
    as (_ & _ & _ & Hclean & _ & _ & Hdel & _).
  assert (keys_ok fresh_store) as Hk.
  { split; apply (bool_decide_unpack _); by vm_compute. }
  split; [by apply Hclean | by apply Hdel].
Defined.

(** ** What a method leaves alone *)

Lemma client_query_select_frame (q : Sql) gs rs :
  is_select q → keeps (relations_are gs rs) (client_query q).
Proof.
  intros Hq s [Hg Hr]. unfold client_query.
  destruct (fault_at s 0); [done|]. by destruct q.
Qed.

Lemma client_query_results_frame (q : Sql) rs :
  (∀ r, q ≠ InsertResult r) → keeps (results_are rs) (client_query q).
Proof.
  intros Hq s Hr. unfold client_query.
  destruct (fault_at s 0); [done|].
  destruct q; try done. by destruct (Hq r).
Qed.

Lemma client_query_insert_frame (r : ResultRow) gs :
  keeps (games_are gs) (client_query (InsertResult r)).
Proof.
  intros s Hg. unfold client_query.
  destruct (fault_at s 0); [done|]. simpl.
  by destruct (insert_result r (game_results s)).
Qed.

Ltac frame_step :=
  first
    [ apply keeps_ret
    | apply keeps_throw
    | by intros ? ?
    | by (intros ? ?; unfold client_select; destruct (fault_at _ 0))
    | apply client_query_select_frame; exact I
    | apply client_query_results_frame; by intros ?
    | apply client_query_insert_frame
    | apply keeps_detached
    | apply keeps_bind; [|intros ?]
    | match goal with
      | |- keeps _ (match ?x with _ => _ end) => destruct x
      | |- keeps _ (if ?x then _ else _) => destruct x
      end ].

Lemma purgeUnfinishedGames_results_frame (arg : option string) rs :
  keeps (results_are rs) (purgeUnfinishedGames arg).
Proof.
  intros s Hs. unfold purgeUnfinishedGames.
  match goal with |- results_are rs (snd (?m s)) =>
    assert (keeps (results_are rs) m) as Hk end.
  { repeat frame_step. }
  by apply Hk.
Qed.

(** X15: the methods that read ([getGames], [getSaveIds],
    [getPlayerCount], [getMaxSaveId], the loaders and [getGameId]) change
    neither relation; the methods that write [games] never change
    [game_results], and [saveGameResults] never changes [games].  For the
    methods that take a callback this is about what they do before they
    call it. *)
Theorem methods_leave_other_relation {GameOptions Score SerializedGame : Type}
    (clonedGamedId : GameOptions → option GameId)
    (options_text : GameOptions → string)
    (JSON_stringify : list Score → string)
    (toJSON : Game → string)
    (JSON_parse : string → Error + SerializedGame)
    (doc_player_ids : string → list string)
    (doc_spectator_id : string → option string)
    (gs : list GameRow) (rs : list ResultRow) :
  (keeps (relations_are gs rs) getGames ∧
   (∀ g, keeps (relations_are gs rs) (getSaveIds g)) ∧
   (∀ g, keeps (relations_are gs rs) (loadCloneableGame JSON_parse g)) ∧
   (∀ g v, keeps (relations_are gs rs) (getGameVersion JSON_parse g v)) ∧
   (∀ A g (cb : option Error → option Z → M A),
      (∀ e n, keeps (relations_are gs rs) (cb e n)) →
      keeps (relations_are gs rs) (getPlayerCount g cb)) ∧
   (∀ A g (cb : option Error → Loaded Z → M A),
      (∀ e v, keeps (relations_are gs rs) (cb e v)) →
      keeps (relations_are gs rs) (getMaxSaveId g cb)) ∧
   (∀ A g (cb : option Error → option SerializedGame → M A),
      (∀ e d, keeps (relations_are gs rs) (cb e d)) →
      keeps (relations_are gs rs) (getGame JSON_parse g cb)) ∧
   (∀ A id (cb : option Error → option GameId → M A),
      (∀ e g, keeps (relations_are gs rs) (cb e g)) →
      keeps (relations_are gs rs)
        (getGameId doc_player_ids doc_spectator_id id cb))) ∧
  ((∀ g, keeps (results_are rs) (cleanSaves g)) ∧
   (∀ arg, keeps (results_are rs) (purgeUnfinishedGames arg)) ∧
   (∀ gm, keeps (results_are rs) (saveGame toJSON gm)) ∧
   (∀ g n, keeps (results_are rs) (deleteGameNbrSaves g n))) ∧
  (∀ g players generations opts scores,
     keeps (games_are gs)
       (saveGameResults clonedGamedId options_text JSON_stringify
          g players generations opts scores)).
Proof.
  repeat apply conj; intros.
  - unfold getGames. repeat frame_step.
  - unfold getSaveIds. repeat frame_step.
  - unfold loadCloneableGame. repeat frame_step.
  - unfold getGameVersion. repeat frame_step.
  - unfold getPlayerCount. repeat first [frame_step | done].
  - unfold getMaxSaveId. repeat first [frame_step | done].
  - unfold getGame. repeat first [frame_step | done].
  - unfold getGameId. repeat first [frame_step | done].
  - unfold cleanSaves, getMaxSaveId, throwIf.
    repeat first [apply purgeUnfinishedGames_results_frame | frame_step].
  - apply purgeUnfinishedGames_results_frame.
  - unfold saveGame. repeat frame_step.
  - unfold deleteGameNbrSaves. repeat frame_step.
  - unfold saveGameResults. repeat frame_step.
Qed.

Lemma methods_leave_other_relation_witness :
  game_results (snd (cleanSaves "g1" recorded_store)) =
    game_results recorded_store ∧
  games (snd (getSaveIds "g1" recorded_store)) = games recorded_store.
Proof.
  destruct (methods_leave_other_relation (GameOptions := unit) (Score := unit)
              (SerializedGame := unit) (fun _ => None) (fun _ => "")
              (fun _ => "") (fun _ => "") (fun _ => inl (JsError ""))
              (fun _ => []) (fun _ => None)
              (games recorded_store) (game_results recorded_store))
    as ((_ & Hids & _) & (Hclean & _) & _).
  split.
  - by apply (Hclean "g1" recorded_store).
  - by apply (Hids "g1" recorded_store).
Defined.

(** ** More on the purge *)

Lemma purgeUnfinishedGames_games (arg : option string) (s : Store) :
  fault_at s 0 = None →
  games (snd (purgeUnfinishedGames arg s)) =
  delete_purge (clock s)
    (purge_days (match arg with
                 | Some v => Some v
                 | None => env_MAX_GAME_DAYS s
                 end)) (games s).
Proof.
  intros E. pose proof (purgeUnfinishedGames_run arg s) as Hp. simpl in Hp.
  by rewrite Hp, E.
Qed.

(** X16: the threshold is not checked for its sign: when the configured
    value reads as zero or a negative number of days and the query runs,
    [purgeUnfinishedGames] deletes every row created before the call,
    the rows of running games included. *)
Theorem purgeUnfinishedGames_nonpositive_days (arg : option string) (s : Store) :
  fault_at s 0 = None →
  purge_days (match arg with
              | Some v => Some v
              | None => env_MAX_GAME_DAYS s
              end) <= 0 →
  ∀ r, r ∈ games s → created_time r < clock s →
       r ∉ games (snd (purgeUnfinishedGames arg s)).
Proof.
  intros E Hd r Hr Hold. rewrite (purgeUnfinishedGames_games _ _ E).
  unfold delete_purge. rewrite list_elem_of_filter. intros [Hkeep _].
  apply Hkeep. unfold expired, one_day. nia.
Qed.

Lemma purgeUnfinishedGames_nonpositive_days_witness :
  mkGameRow "g3" 2 0 "f0" running (11 * one_day)
    ∉ games (snd (purgeUnfinishedGames (Some "0") aged_store)).
Proof.
  apply (purgeUnfinishedGames_nonpositive_days (Some "0") aged_store).
  - reflexivity.
  - by vm_compute.
  - simpl. do 3 right. left.
  - by vm_compute.
Defined.

(** X17: a purge makes no difference to a later purge with the same
    retention value: when both queries run, purging and then purging
    again at a later time leaves the relation that the later purge alone
    would have left. *)
Theorem purgeUnfinishedGames_absorbs_earlier (arg : option string) (s : Store)
    (later : Z) :
  fault_at s 0 = None →
  fault_at s 1 = None →
  clock s <= later →
  games (snd (purgeUnfinishedGames arg
                (with_clock later (snd (purgeUnfinishedGames arg s))))) =
  delete_purge later
    (purge_days (match arg with
                 | Some v => Some v
                 | None => env_MAX_GAME_DAYS s
                 end)) (games s).
Proof.
  intros E0 E1 Hlater.
  pose proof (purgeUnfinishedGames_run arg s) as Hp. simpl in Hp.
  rewrite Hp, E0. clear Hp. simpl.
  rewrite purgeUnfinishedGames_games.
  - simpl. unfold delete_purge. rewrite list_filter_filter.
    apply list_filter_iff. intros r. unfold expired. lia.
  - by change (fault_at (after_query (DeletePurge
        (purge_days (match arg with
                     | Some v => Some v
                     | None => env_MAX_GAME_DAYS s
                     end))) s) 0 = None); rewrite fault_at_after_query.
Qed.

Lemma purgeUnfinishedGames_absorbs_earlier_witness :
  games (snd (purgeUnfinishedGames (Some "3")
                (with_clock (15 * one_day)
                   (snd (purgeUnfinishedGames (Some "3") aged_store))))) = [].
Proof.
  rewrite (purgeUnfinishedGames_absorbs_earlier (Some "3") aged_store
             (15 * one_day)); [reflexivity | reflexivity | reflexivity |].
  by vm_compute.
Defined.

(** ** Saving successive versions *)

(** X18: the counter that [saveGame] advances is the version of the next
    save: when both upserts run, saving a game and then saving the game
    object as the first call left it stores two rows, the first document
    under the old version number and the second under the next one, and
    leaves the counter two higher. *)
Theorem saveGame_successive_versions (toJSON : Game → string) (gm : Game)
    (s : Store) :
  pk_unique (games s) →
  fault_at s 0 = None →
  fault_at s 1 = None →
  let first := saveGame toJSON gm s in
  let second := saveGame toJSON (bump gm) (snd first) in
  fst first = Returned (bump gm) ∧
  (∃ gm2, fst second = Returned gm2 ∧ lastSaveId gm2 = lastSaveId gm + 2) ∧
  (∃ r, filter (has_key (id gm) (lastSaveId gm)) (games (snd second)) = [r] ∧
        game r = toJSON gm) ∧
  (∃ r, filter (has_key (id gm) (lastSaveId gm + 1)) (games (snd second)) = [r] ∧
        game r = toJSON (bump gm)).
Proof.
  intros Hpk E0 E1. simpl. rewrite (saveGame_run _ _ _ E0). simpl.
  set (gs1 := upsert_game _ _ _ _ _ (games s)).
  assert (pk_unique gs1) as Hpk1 by by apply upsert_game_pk_unique.
  rewrite saveGame_run
    by (by rewrite fault_at_with_games, fault_at_after_query).
  simpl. split; [done|]. split; [eexists; split; [done|simpl; lia]|]. split.
  - rewrite upsert_game_other_keys by (intros [=]; lia).
    by apply upsert_game_row.
  - by apply upsert_game_row.
Qed.

Lemma saveGame_successive_versions_witness :
  select_save_ids "g2"
    (games (snd (saveGame (fun gm => pretty (lastSaveId gm))
                   (bump sample_game)
                   (snd (saveGame (fun gm => pretty (lastSaveId gm))
                           sample_game stale_store)))))
  = [0; 1; 2] ∧
  ∃ r, filter (has_key "g2" 2)
         (games (snd (saveGame (fun gm => pretty (lastSaveId gm))
                        (bump sample_game)
                        (snd (saveGame (fun gm => pretty (lastSaveId gm))
                                sample_game stale_store))))) = [r] ∧
       game r = "2".
Proof.
  split; [reflexivity|].
  destruct (saveGame_successive_versions (fun gm => pretty (lastSaveId gm))
              sample_game stale_store) as (_ & _ & _ & H).
  - apply (bool_decide_unpack _). by vm_compute.
  - reflexivity.
  - reflexivity.
  - exact H.
Defined.

(** ** The player count of a saved game *)

(** X19: the player count is fixed by the first save of version 0: when
    a game is saved at version 0 for the first time and both queries run,
    [getPlayerCount] calls back with the number of players the game had
    at that save. *)
Theorem saveGame_then_getPlayerCount {A : Type} (toJSON : Game → string)
    (cb : option Error → option Z → M A) (gm : Game) (s : Store) :
  pk_unique (games s) →
  fault_at s 0 = None →
  fault_at s 1 = None →
  lastSaveId gm = 0 →
  (∀ r, r ∈ games s → ¬ has_key (id gm) 0 r) →
  let s1 := snd (saveGame toJSON gm s) in
  getPlayerCount (id gm) cb s1 =
  cb None (Some (Z.of_nat (length (getPlayers gm))))
     (after_query (SelectPlayers (id gm)) s1).
Proof.
  intros Hpk E0 E1 Hv Hnew. simpl. rewrite (saveGame_run _ _ _ E0). simpl.
  unfold getPlayerCount, bind.
  rewrite client_query_run
    by (by rewrite fault_at_with_games, fault_at_after_query).
  simpl. unfold select_players, upsert_game. rewrite Hv.
  rewrite decide_False
    by (intros (r & Hr & Hk)%Exists_exists; by apply (Hnew r)).
  rewrite filter_app, filter_none.
  - rewrite filter_cons_True by done. done.
  - intros r Hr [? ?]. by apply (Hnew r).
Qed.

Lemma saveGame_then_getPlayerCount_witness :
  getPlayerCount "g7" (fun err n => ret (err, n))
    (snd (saveGame (fun _ => "h0") (mkGame "g7" 0 ["p1"; "p2"]) stale_store))
  = (Returned (None, Some 2),
     after_query (SelectPlayers "g7")
       (snd (saveGame (fun _ => "h0") (mkGame "g7" 0 ["p1"; "p2"]) stale_store))).
Proof.
  apply (saveGame_then_getPlayerCount (fun _ => "h0")
           (fun err n => ret (err, n)) (mkGame "g7" 0 ["p1"; "p2"]) stale_store).
  - apply (bool_decide_unpack _). by vm_compute.
  - reflexivity.
  - reflexivity.
  - reflexivity.
  - intros r Hr [Hg _]. simpl in Hr.
    repeat (apply elem_of_cons in Hr as [->|Hr]; [discriminate|]).
    by apply elem_of_nil in Hr.
Defined.

(** ** The order and the multiplicity of the active games *)

#[global] Instance newest_first_total : Total newest_first.
Proof. intros a b. unfold newest_first. lia. Qed.

#[global] Instance newest_first_trans : Transitive newest_first.
Proof. intros a b c. unfold newest_first. lia. Qed.

(** The row that stands for a game in the join of [getGames]. *)
Lemma joined_with_running_max (gs : list GameRow) (r : GameRow) :
  let rs := filter (fun r => status r = running) gs in
  (x ← running_max gs;
   if decide (game_id r = x.2 ∧ Some (save_id r) = x.1) then [r] else []) =
  if decide (game_id r ∈ game_id <$> rs ∧
             Some (save_id r) = sql_max (save_id <$> rows_of_game (game_id r) rs))
  then [r] else [].
Proof.
  simpl. unfold running_max.
  set (rs := filter (fun r => status r = running) gs).
  set (f := fun g => (sql_max (save_id <$> rows_of_game g rs), g)).
  assert (Hl : ∀ l, NoDup l →
    (x ← f <$> l;
     if decide (game_id r = x.2 ∧ Some (save_id r) = x.1) then [r] else []) =
    if decide (game_id r ∈ l ∧ Some (save_id r) = (f (game_id r)).1)
    then [r] else []).
  { induction l as [|g l IH]; intros Hnd.
    - rewrite fmap_nil. case_decide as Hc; [|done].
      destruct Hc as [Hc _]. by apply elem_of_nil in Hc.
    - apply NoDup_cons in Hnd as [Hg Hnd].
      rewrite fmap_cons, bind_cons, (IH Hnd). clear IH.
      repeat case_decide; simpl in *; rewrite ?elem_of_cons in *;
        try done; exfalso; intuition (subst; eauto). }
  rewrite (Hl _ (NoDup_remove_dups _)). apply decide_ext.
  by rewrite elem_of_remove_dups.
Qed.

Lemma bind_if_filter {A} (P : A → Prop) `{!∀ x, Decision (P x)} (l : list A) :
  (x ← l; if decide (P x) then [x] else []) = filter P l.
Proof.
  induction l as [|x l IH]; [done|]. rewrite bind_cons, IH.
  case_decide.
  - by rewrite filter_cons_True.
  - by rewrite filter_cons_False.
Qed.

(** X20: on a relation that respects its primary key and when the query
    runs, [getGames] lists every game that has a running row, no other
    game, and each one exactly once; the games come in the order of the
    creation time, newest first, of the row that stands for them, which
    is the game's running row with the highest version. *)
Theorem getGames_lists_each_game_once (s : Store) :
  pk_unique (games s) →
  fault_at s 0 = None →
  ∃ rows,
    fst (getGames s) = Returned (game_id <$> rows) ∧
    (∀ g, g ∈ game_id <$> rows ↔ has_running_row g (games s)) ∧
    NoDup (game_id <$> rows) ∧
    StronglySorted newest_first rows ∧
    ∀ r, r ∈ rows →
         r ∈ games s ∧ status r = running ∧
         ∀ r', r' ∈ games s → game_id r' = game_id r → status r' = running →
               save_id r' <= save_id r.
Proof.
  intros Hpk E. unfold getGames, bind. rewrite (client_query_run _ _ E). simpl.
  unfold select_active_games.
  set (rs := filter (fun r => status r = running) (games s)).
  set (P := fun r : GameRow =>
    game_id r ∈ game_id <$> rs ∧
    Some (save_id r) = sql_max (save_id <$> rows_of_game (game_id r) rs)).
  assert (Hj : (r ← games s; x ← running_max (games s);
                if decide (game_id r = x.2 ∧ Some (save_id r) = x.1)
                then [r] else []) = filter P (games s)).
  { rewrite <- bind_if_filter. apply list_bind_ext; [|done]. intros r.
    apply (joined_with_running_max (games s) r). }
  assert (Hsel : select_active_games (games s) =
                 game_id <$> merge_sort newest_first (filter P (games s))).
  { unfold select_active_games. by rewrite Hj. }
  rewrite Hj. clear Hj.
  assert (HP : ∀ r, r ∈ filter P (games s) →
    r ∈ games s ∧ status r = running ∧
    ∀ r', r' ∈ games s → game_id r' = game_id r → status r' = running →
          save_id r' <= save_id r).
  { intros r [[Hg Hm] Hr]%list_elem_of_filter. symmetry in Hm.
    split; [done|]. split.
    - apply sql_max_elem, list_elem_of_fmap in Hm as (r1 & Hv & Hr1).
      unfold rows_of_game, rs in Hr1. rewrite !list_elem_of_filter in Hr1.
      destruct Hr1 as (Hg1 & Hs1 & Hin1).
      assert (r = r1) as ->; [|done].
      apply (NoDup_fmap_eq pk (games s)); [done..|].
      unfold pk. by rewrite Hv, Hg1.
    - intros r' Hr' Hg' Hs'. apply (sql_max_upper _ _ _ Hm).
      apply list_elem_of_fmap_2. unfold rows_of_game, rs.
      by rewrite !list_elem_of_filter. }
  exists (merge_sort newest_first (filter P (games s))).
  split; [done|]. split; [|split; [|split]].
  - intros g. rewrite <- Hsel. apply elem_of_select_active_games.
  - rewrite merge_sort_Permutation. apply NoDup_fmap_2_strong.
    + intros r1 r2 Hr1 Hr2 Hg.
      pose proof (proj1 (list_elem_of_filter _ _ _) Hr1) as [[_ Hm1] Hin1].
      pose proof (proj1 (list_elem_of_filter _ _ _) Hr2) as [[_ Hm2] Hin2].
      apply (NoDup_fmap_eq pk (games s)); [done..|].
      unfold pk. f_equal; [done|].
      rewrite Hg in Hm1. rewrite <- Hm2 in Hm1. by injection Hm1.
    + apply NoDup_filter. by apply (NoDup_fmap_1 pk).
  - apply StronglySorted_merge_sort; apply _.
  - intros r Hr. rewrite merge_sort_Permutation in Hr. by apply HP.
Qed.

Lemma getGames_lists_each_game_once_witness :
  ∃ rows,
    fst (getGames fresh_store) = Returned (game_id <$> rows) ∧
    (∀ g, g ∈ game_id <$> rows ↔ has_running_row g (games fresh_store)) ∧
    NoDup (game_id <$> rows) ∧
    StronglySorted newest_first rows ∧
    ∀ r, r ∈ rows →
         r ∈ games fresh_store ∧ status r = running ∧
         ∀ r', r' ∈ games fresh_store → game_id r' = game_id r →
               status r' = running → save_id r' <= save_id r.
Proof.
  apply (getGames_lists_each_game_once fresh_store).
  - apply (bool_decide_unpack _). by vm_compute.
  - reflexivity.
Defined.
